(** * navc: the parse scheduler (files.go) and the translation-unit parser
      (parse.go), embedded shallowly and checked against their specification.

    Layout: the Go library functions the sources call ([strings], [path/filepath]),
    then the embedding of parse.go, then the embedding of files.go (the
    scheduler, and after it the file-name patterns, the events and the
    directory walk), then the lemmas and the theorems about them. *)

From Stdlib Require Import ZArith Ascii String.
From stdpp Require Import gmap strings list.


(** ** Go's [strings] package, on byte strings *)
Module GoStrings.

(** [unicode.IsSpace] restricted to one-byte runes: tab, line feed, vertical
    tab, form feed, carriage return and space.  Commands are taken to be
    ASCII; the multi-byte Unicode spaces are outside this model. *)
Definition isSpace (c : ascii) : bool :=
  let n := nat_of_ascii c in
  bool_decide (n = 9 ∨ n = 10 ∨ n = 11 ∨ n = 12 ∨ n = 13 ∨ n = 32).

(** [fieldsAux cur s]: [cur] is the field being read, most recent byte first. *)
Fixpoint fieldsAux (cur : list ascii) (s : string) : list string :=
  let flush (k : list string) :=
    match cur with
    | [] => k
    | _ => string_of_list_ascii (rev cur) :: k
    end in
  match s with
  | EmptyString => flush []
  | String c s' =>
      if isSpace c then flush (fieldsAux [] s') else fieldsAux (c :: cur) s'
  end.

(** [strings.Fields]: the maximal runs of non-space bytes, in order. *)
Definition Fields (s : string) : list string := fieldsAux [] s.

(** [strings.HasPrefix s p]. *)
Definition HasPrefix (s p : string) : bool := String.prefix p s.

Fixpoint dropBytes (n : nat) (s : string) : string :=
  match n, s with
  | O, _ => s
  | S n', String _ s' => dropBytes n' s'
  | S _, EmptyString => EmptyString
  end.

(** [strings.Replace s old new 1]: the first occurrence of [old] replaced. *)
Fixpoint ReplaceFirst (s old new : string) : string :=
  if String.prefix old s then new +:+ dropBytes (String.length old) s
  else match s with
       | EmptyString => EmptyString
       | String c s' => String c (ReplaceFirst s' old new)
       end.

(** Splitting at a separator byte, keeping empty pieces. *)
Fixpoint splitOn (sep : ascii) (s : string) : list string :=
  match s with
  | EmptyString => [EmptyString]
  | String c s' =>
      if bool_decide (c = sep) then EmptyString :: splitOn sep s'
      else match splitOn sep s' with
           | h :: t => String c h :: t
           | [] => [String c EmptyString]
           end
  end.

(** [strings.Join l sep]. *)
Definition Join (l : list string) (sep : string) : string := String.concat sep l.

End GoStrings.

(** ** Go's [path/filepath] package on Unix, lexical part *)
Module Filepath.
Import GoStrings.

Definition Separator : ascii := "/"%char.

(** [filepath.IsAbs]. *)
Definition IsAbs (p : string) : bool := HasPrefix p "/".

(** One element of a path pushed on the cleaned elements read so far
    (innermost first).  A rooted path drops a leading [..]. *)
Definition cleanStep (rooted : bool) (stack : list string) (c : string) : list string :=
  if bool_decide (c = "" ∨ c = ".") then stack
  else if bool_decide (c = "..") then
    match stack with
    | top :: rest => if bool_decide (top = "..") then c :: stack else rest
    | [] => if rooted then [] else [c]
    end
  else c :: stack.

(** [filepath.Clean]: multiple separators collapsed, [.] elements removed,
    inner [..] resolved, the empty result written [.]. *)
Definition Clean (p : string) : string :=
  let rooted := IsAbs p in
  let body := Join (rev (fold_left (cleanStep rooted) (splitOn Separator p) [])) "/" in
  if rooted then "/" +:+ body
  else if bool_decide (body = "") then "." else body.

(** [filepath.Join a b] for two elements. *)
Definition Join2 (a b : string) : string :=
  if bool_decide (a = "") then (if bool_decide (b = "") then "" else Clean b)
  else Clean (a +:+ "/" +:+ b).

(** The elements of a cleaned path. *)
Definition pathElements (p : string) : list string :=
  filter (λ c, c ≠ "" ∧ c ≠ ".") (splitOn Separator p).

Fixpoint stripCommon (b t : list string) : list string * list string :=
  match b, t with
  | x :: b', y :: t' => if bool_decide (x = y) then stripCommon b' t' else (b, t)
  | _, _ => (b, t)
  end.

(** A path element: not empty, and not starting with the separator. *)
Definition pathElement (c : string) : Prop := c ≠ "" ∧ IsAbs c = false.

(** [filepath.Rel base targ]; [None] is its error.  Both paths are cleaned,
    their common leading elements removed, and one [..] is written for
    every element left of the base. *)
Definition Rel (basepath targpath : string) : option string :=
  let base := Clean basepath in
  let targ := Clean targpath in
  if bool_decide (targ = base) then Some "."
  else if negb (eqb (IsAbs base) (IsAbs targ)) then None
  else
    let '(br, tr) := stripCommon (pathElements base) (pathElements targ) in
    match br with
    | [] => Some (Join tr "/")
    | x :: _ =>
        if bool_decide (x = "..") then None
        else Some (Join (replicate (length br) ".." ++ tr) "/")
    end.

End Filepath.

(** ** Panics and the process environment *)

(** The ways the modelled code aborts ([log.Panic], or Go's bounds check). *)
Inductive panic : Type :=
| IndexOutOfRange            (* argsList[i+1] past the end *)
| PanicGetwd                 (* "unable to get working directoy" *)
| PanicAbs                   (* "unable to get absolute path" *)
| PanicRel                   (* "unable to get relative path" *)
| PanicOpenCompileDb         (* "error opening compile db" *)
| PanicDecode.               (* the JSON decoder's error *)

Inductive result (A : Type) : Type :=
| Ok (a : A)
| Panic (p : panic).
Arguments Ok {A} a.
Arguments Panic {A} p.

Definition bind {A B} (r : result A) (k : A → result B) : result B :=
  match r with
  | Ok a => k a
  | Panic p => Panic p
  end.

Notation "'letP' x ':=' r 'in' k" := (bind r (λ x, k))
  (at level 10, x name, r at level 100, k at level 200).

(** ** parse.go *)
#[local] Set Warnings "-register-all,-clear-no-such-hyp".

Module ParseGo.
Import GoStrings Filepath.

(** type compArgs struct *)
Record compArgs := mkCompArgs {
  Directory : string;
  Command : string;
  File : string
}.

(** What [os.Open] answers for a path: the file (here already run through
    [json.Decoder.Decode], [None] when the content is not a JSON array of
    compArgs), a permission error, a does-not-exist error, or another one. *)
Inductive openResult : Type :=
| Opened (decoded : option (list compArgs))
| ErrPermission
| ErrNotExist
| ErrOther.

(** The part of the operating system the parser consults. *)
Record Env := mkEnv {
  Getwd : option string;            (* os.Getwd; None is its error *)
  Open : string → openResult        (* os.Open, then the decoder *)
}.

(** [filepath.Abs]. *)
Definition Abs (env : Env) (p : string) : option string :=
  if IsAbs p then Some (Clean p)
  else match Getwd env with
       | Some wd => Some (Join2 wd p)
       | None => None
       end.

(** func fixPaths(cas []compArgs, path string) *)
Fixpoint fixPathsLoop (wd : string) (cas : list compArgs) : result (list compArgs) :=
  match cas with
  | [] => Ok []
  | ca :: cas' =>
      match Rel wd (File ca) with
      | None => Panic PanicRel
      | Some rel =>
          letP rest := fixPathsLoop wd cas' in
          Ok (mkCompArgs (Directory ca) (Command ca) (Clean rel) :: rest)
      end
  end.

Definition fixPaths (env : Env) (cas : list compArgs) (path : string)
  : result (list compArgs) :=
  if IsAbs path then Ok cas
  else match Getwd env with
       | None => Panic PanicGetwd
       | Some wd => fixPathsLoop wd cas
       end.

(** func fixCompDirArg(argDir, path string) string *)
Definition fixCompDirArg (env : Env) (argDir path : string) : result string :=
  if IsAbs path then
    if IsAbs argDir then Ok argDir
    else match Abs env argDir with
         | None => Panic PanicAbs
         | Some abs => Ok (Clean abs)
         end
  else if IsAbs argDir then
    match Getwd env with
    | None => Panic PanicGetwd
    | Some wd =>
        match Rel wd argDir with
        | None => Panic PanicRel
        | Some rel => Ok (Clean rel)
        end
    end
  else Ok (Clean (path +:+ "/" +:+ argDir)).

(** One iteration of the loop of getCompArgs: the switch on [arg], at
    index [i] of [argsList], with [args] the arguments collected so far. *)
Definition getCompArgsStep (env : Env) (argsList : list string) (path : string)
    (i : nat) (arg : string) (args : list string) : result (list string) :=
  if bool_decide (arg = "-D") then
    match argsList !! (i + 1)%nat with
    | None => Panic IndexOutOfRange
    | Some next => Ok (args ++ [arg; next])
    end
  else if HasPrefix arg "-D" then Ok (args ++ [arg])
  else if bool_decide (arg = "-I") then
    match argsList !! (i + 1)%nat with
    | None => Panic IndexOutOfRange
    | Some next =>
        letP argDir := fixCompDirArg env next path in
        Ok (args ++ ["-I"; argDir])
    end
  else if HasPrefix arg "-I" then
    letP argDir := fixCompDirArg env (ReplaceFirst arg "-I" "") path in
    Ok (args ++ ["-I"; argDir])
  else Ok args.

(** for i, arg := range argsList, from index [i] on ([rest] is what is
    left of [argsList] there). *)
Fixpoint getCompArgsLoop (env : Env) (argsList : list string) (path : string)
    (i : nat) (rest : list string) (args : list string) : result (list string) :=
  match rest with
  | [] => Ok args
  | arg :: rest' =>
      letP args' := getCompArgsStep env argsList path i arg args in
      getCompArgsLoop env argsList path (S i) rest' args'
  end.

(** func getCompArgs(command, path string) []string *)
Definition getCompArgs (env : Env) (command path : string) : result (list string) :=
  let argsList := Fields command in
  getCompArgsLoop env argsList path 0 argsList [].

(** type parse struct { cas map[string][]string } *)
Record parse := mkParse { cas : gmap string (list string) }.

(** for _, ca := range cas { ret.cas[ca.File] = getCompArgs(ca.Command, path) } *)
Fixpoint indexCompArgs (env : Env) (path : string) (l : list compArgs)
    (m : gmap string (list string)) : result (gmap string (list string)) :=
  match l with
  | [] => Ok m
  | ca :: l' =>
      letP args := getCompArgs env (Command ca) path in
      indexCompArgs env path l' (<[File ca := args]> m)
  end.

(** The database file newParser opens for an input directory. *)
Definition compileDb (path : string) : string := path +:+ "/compile_commands.json".

(** The loop of newParser over the input directories. *)
Fixpoint newParserLoop (env : Env) (inputDirs : list string)
    (m : gmap string (list string)) : result (gmap string (list string)) :=
  match inputDirs with
  | [] => Ok m
  | path :: dirs =>
      match Open env (compileDb path) with
      | ErrPermission => Panic PanicOpenCompileDb
      | ErrNotExist | ErrOther => newParserLoop env dirs m
      | Opened None => Panic PanicDecode
      | Opened (Some l) =>
          letP l' := fixPaths env l path in
          letP m' := indexCompArgs env path l' m in
          newParserLoop env dirs m'
      end
  end.

(** func newParser(inputDirs []string) *parse *)
Definition newParser (env : Env) (inputDirs : list string) : result parse :=
  letP m := newParserLoop env inputDirs ∅ in
  Ok (mkParse m).

(** *** The cursor tree of the AST oracle (go-clang) *)

(** [clang.CursorKind]: the kinds the visitor names, and all the others. *)
Inductive CursorKind : Type :=
| Cursor_FunctionDecl | Cursor_StructDecl | Cursor_FieldDecl
| Cursor_TypedefDecl | Cursor_EnumDecl | Cursor_EnumConstantDecl
| Cursor_MacroDefinition | Cursor_VarDecl | Cursor_ParmDecl
| Cursor_CallExpr
| Cursor_DeclRefExpr | Cursor_TypeRef | Cursor_MemberRefExpr
| Cursor_MacroExpansion
| Cursor_InclusionDirective
| Cursor_Other.

(** What the code reads of one cursor, children apart: [IsNull], [Kind],
    [Spelling], [USR] and [Location().FileLocation()] (the name of the file,
    empty when the location has none, the line and the column). *)
Record CursorData := mkCursorData {
  IsNull : bool;
  Kind : CursorKind;
  Spelling : string;
  USR : string;
  LocFile : string;
  LocLine : Z;
  LocCol : Z
}.

(** A cursor of the tree: its own data, what [Referenced()] and
    [Definition()] answer, the name of [IncludedFile()], and the children
    the traversal reaches from it. *)
Inductive Cursor : Type :=
| mkCursor (data : CursorData) (referenced : CursorData)
    (definition : CursorData) (includedFile : string)
    (children : list Cursor).

Definition data (c : Cursor) : CursorData :=
  match c with mkCursor d _ _ _ _ => d end.
Definition Referenced (c : Cursor) : CursorData :=
  match c with mkCursor _ r _ _ _ => r end.
Definition DefinitionOf (c : Cursor) : CursorData :=
  match c with mkCursor _ _ d _ _ => d end.
Definition IncludedFile (c : Cursor) : string :=
  match c with mkCursor _ _ _ f _ => f end.
Definition children (c : Cursor) : list Cursor :=
  match c with mkCursor _ _ _ _ l => l end.

(** SymbolLocReq{File, Line, Col}, as the struct literal of
    getSymbolFromCursor fills it. *)
Record SymbolLocReq := mkSymbolLocReq {
  locFile : string;
  locLine : Z;
  locCol : Z
}.

(** symbolInfo{name, usr, loc} *)
Record symbolInfo := mkSymbolInfo {
  name : string;
  usr : string;
  loc : SymbolLocReq
}.

(** func getSymbolFromCursor(cursor *clang.Cursor) *symbolInfo; [None] is nil. *)
Definition getSymbolFromCursor (cursor : CursorData) : option symbolInfo :=
  if IsNull cursor then None
  else
    let fName := Clean (LocFile cursor) in
    Some (mkSymbolInfo (Spelling cursor) (USR cursor)
            (mkSymbolLocReq fName (LocLine cursor) (LocCol cursor))).

(** Modelled from the spec: symbols-db.go, which defines symbolsTUDB and its
    Insert methods, is missing.  A snapshot is the file, its modification
    time and the Insert calls made on it, in order: declaration-only,
    declaration-with-definition, use (with the is-call flag; the used
    declaration is nil when the referenced cursor is null) and header edge. *)
Inductive tudbEntry : Type :=
| InsertSymbolDecl (sym : symbolInfo)
| InsertSymbolDeclWithDef (sym def : symbolInfo)
| InsertSymbolUse (sym : symbolInfo) (dec : option symbolInfo) (funcCall : bool)
| InsertHeader (inclPath : string) (incFile : string).

(** Modelled from the spec: the snapshot type of symbols-db.go, built by
    newSymbolsTUDB(file, time) and filled by the Insert calls. *)
Record symbolsTUDB := mkSymbolsTUDB {
  tudbFile : string;
  tudbMtime : Z;
  tudbEntries : list tudbEntry
}.

(** The symbol of the visited cursor an entry carries, if it carries one. *)
Definition entrySymbol (e : tudbEntry) : option symbolInfo :=
  match e with
  | InsertSymbolDecl sym | InsertSymbolDeclWithDef sym _
  | InsertSymbolUse sym _ _ => Some sym
  | InsertHeader _ _ => None
  end.

(** clang.ChildVisitResult, as far as the visitor returns it. *)
Inductive ChildVisitResult : Type :=
| ChildVisit_Continue
| ChildVisit_Recurse.

(** The switch of visitNode on [cursor.Kind()]: the Insert calls made for a
    cursor whose symbol is [cur].  getSymbolFromCursor answers nil exactly
    for a null cursor, so the test [!defCursor.IsNull()] is the match on its
    result. *)
Definition classify (cursor : Cursor) (cur : symbolInfo) : list tudbEntry :=
  match Kind (data cursor) with
  | Cursor_FunctionDecl | Cursor_StructDecl | Cursor_FieldDecl
  | Cursor_TypedefDecl | Cursor_EnumDecl | Cursor_EnumConstantDecl =>
      let defCursor := DefinitionOf cursor in
      match getSymbolFromCursor defCursor with
      | Some def => [InsertSymbolDeclWithDef cur def]
      | None => [InsertSymbolDecl cur]
      end
  | Cursor_MacroDefinition => [InsertSymbolDeclWithDef cur cur]
  | Cursor_VarDecl => [InsertSymbolDecl cur]
  | Cursor_ParmDecl =>
      if bool_decide (Spelling (data cursor) ≠ "") then [InsertSymbolDecl cur]
      else []
  | Cursor_CallExpr =>
      let decCursor := Referenced cursor in
      let dec := getSymbolFromCursor decCursor in
      [InsertSymbolUse cur dec true]
  | Cursor_DeclRefExpr | Cursor_TypeRef | Cursor_MemberRefExpr
  | Cursor_MacroExpansion =>
      let decCursor := Referenced cursor in
      let dec := getSymbolFromCursor decCursor in
      [InsertSymbolUse cur dec false]
  | Cursor_InclusionDirective =>
      let incFile := IncludedFile cursor in
      [InsertHeader (Spelling (data cursor)) incFile]
  | Cursor_Other => []
  end.

(** visitNode: the Insert calls made at one cursor and the directive
    returned to the traversal.  The first test, [cursor.IsNull()], is the
    nil answer of getSymbolFromCursor. *)
Definition visitNode (cursor : Cursor) : list tudbEntry * ChildVisitResult :=
  match getSymbolFromCursor (data cursor) with
  | None => ([], ChildVisit_Continue)
  | Some cur =>
      let curFile := locFile (loc cur) in
      if bool_decide (curFile = "" ∨ curFile = ".") then
        (* ignore system code *)
        ([], ChildVisit_Continue)
      else (classify cursor cur, ChildVisit_Recurse)
  end.

(** [Cursor.Visit]: the visitor is called on every child in order; on
    Recurse the child's own children are visited before its next sibling. *)
Fixpoint visit (cursor : Cursor) : list tudbEntry :=
  match visitNode cursor with
  | (es, ChildVisit_Continue) => es
  | (es, ChildVisit_Recurse) => es ++ flat_map visit (children cursor)
  end.

Definition Visit (root : Cursor) : list tudbEntry :=
  flat_map visit (children root).

(** What [ParseTranslationUnit] hands back: the translation unit's cursor
    and the modification time [tu.File(file).Time()] reports. *)
Record TranslationUnit := mkTranslationUnit {
  TranslationUnitCursor : Cursor;
  FileTime : string → Z
}.

(** The arguments Parse passes to the oracle: [pa.cas[file]], or the empty
    list when the file has no entry. *)
Definition parseArgs (pa : parse) (file : string) : list string :=
  match cas pa !! file with
  | Some args => args
  | None => []
  end.

(** func (pa *parse) Parse(file string) *symbolsTUDB, over the oracle
    [ParseTranslationUnit]. *)
Definition Parse
    (ParseTranslationUnit : string → list string → TranslationUnit)
    (pa : parse) (file : string) : symbolsTUDB :=
  let args := parseArgs pa file in
  let tu := ParseTranslationUnit file args in
  mkSymbolsTUDB file (FileTime tu file) (Visit (TranslationUnitCursor tu)).

(** The cursors of a subtree in pre-order, and the cursors below the
    translation unit's cursor, which are the ones the traversal can reach. *)
Fixpoint subtree (cursor : Cursor) : list Cursor :=
  cursor :: flat_map subtree (children cursor).

Definition descendants (root : Cursor) : list Cursor :=
  flat_map subtree (children root).

End ParseGo.

(** ** files.go: the parse scheduler *)
Module FilesGo.
Import ParseGo.

(** The package variables the scheduler owns: toParseMap and inFlight are
    map[string]bool used as sets (only [true] is ever stored, and entries
    leave through [delete]); toParseQueue is the container/list queue. *)
Record sched := mkSched {
  toParseMap : gset string;
  toParseQueue : list string;
  inFlight : gset string
}.

(** What the two functions do to the outside: a send on the channel
    parseFile, and a call of db.InsertTUDB. *)
Inductive effect : Type :=
| SendParseFile (filePath : string)
| InsertTUDB (tudb : symbolsTUDB).

(** The state startFilesHandler sets up. *)
Definition startState : sched := mkSched ∅ [] ∅.

(** func queueFileToParse(filePath string) *)
Definition queueFileToParse (nIndexingThreads : Z) (s : sched) (filePath : string)
  : sched * list effect :=
  if bool_decide (Z.of_nat (size (inFlight s)) < nIndexingThreads)%Z
     && negb (bool_decide (filePath ∈ inFlight s))
  then
    (mkSched (toParseMap s) (toParseQueue s) ({[filePath]} ∪ inFlight s),
     [SendParseFile filePath])
  else if negb (bool_decide (filePath ∈ toParseMap s)) then
    (mkSched ({[filePath]} ∪ toParseMap s) (toParseQueue s ++ [filePath]) (inFlight s),
     [])
  else (s, []).

(** func queueFilesToParse(files ...string) *)
Fixpoint queueFilesToParse (nIndexingThreads : Z) (s : sched) (files : list string)
  : sched * list effect :=
  match files with
  | [] => (s, [])
  | f :: files' =>
      let '(s1, e1) := queueFileToParse nIndexingThreads s f in
      let '(s2, e2) := queueFilesToParse nIndexingThreads s1 files' in
      (s2, e1 ++ e2)
  end.

(** func doneFileToParse(tudb *symbolsTUDB) *)
Definition doneFileToParse (s : sched) (tudb : symbolsTUDB) : sched * list effect :=
  let e1 :=
    if negb (bool_decide (tudbFile tudb ∈ toParseMap s)) then [InsertTUDB tudb]
    else [] in
  let inFlight1 := inFlight s ∖ {[tudbFile tudb]} in
  match toParseQueue s with
  | [] => (mkSched (toParseMap s) [] inFlight1, e1)
  | filePath :: queue' =>
      (mkSched (toParseMap s ∖ {[filePath]}) queue' ({[filePath]} ∪ inFlight1),
       e1 ++ [SendParseFile filePath])
  end.

(** The database after the effects, for any database and any InsertTUDB
    (symbols-db.go is not part of the sources read here). *)
Definition applyDB {DB : Type} (insert : DB → symbolsTUDB → DB)
    (db : DB) (es : list effect) : DB :=
  fold_left (λ d e, match e with
                    | InsertTUDB t => insert d t
                    | SendParseFile _ => d
                    end) es db.

(** The paths sent on parseFile by a list of effects, in order. *)
Definition sent (es : list effect) : list string :=
  omap (λ e, match e with
             | SendParseFile f => Some f
             | InsertTUDB _ => None
             end) es.

(** The snapshots handed to db.InsertTUDB by a list of effects, in order. *)
Definition inserted (es : list effect) : list symbolsTUDB :=
  omap (λ e, match e with
             | InsertTUDB t => Some t
             | SendParseFile _ => None
             end) es.

(** *** The event loop with its workers

    handleFiles starts [nIndexingThreads] goroutines parseFiles; each takes
    a path from the unbuffered channel parseFile, parses it and sends the
    snapshot on the unbuffered channel doneFile.  [working] lists the paths
    handed to a worker whose snapshot the loop has not yet received, so a
    send on parseFile goes through only while a worker is free. *)
Record system := mkSystem {
  sch : sched;
  working : list string;
  trace : list effect
}.

Definition workers (nIndexingThreads : Z) : nat := Z.to_nat nIndexingThreads.

Definition startSystem : system := mkSystem startState [] [].

(** The loop calls queueFileToParse (a file event, a discovered file, an
    includer of a changed header). *)
Definition request (n : Z) (st : system) (filePath : string) : system :=
  let '(s', es) := queueFileToParse n (sch st) filePath in
  mkSystem s' (working st ++ sent es) (trace st ++ es).

(** Removing the first occurrence of a path. *)
Fixpoint removeOne (f : string) (l : list string) : list string :=
  match l with
  | [] => []
  | x :: l' => if bool_decide (x = f) then l' else x :: removeOne f l'
  end.

(** The loop receives a snapshot on doneFile and calls doneFileToParse. *)
Definition complete (st : system) (tudb : symbolsTUDB) : system :=
  let '(s', es) := doneFileToParse (sch st) tudb in
  mkSystem s' (removeOne (tudbFile tudb) (working st) ++ sent es) (trace st ++ es).

(** The states the daemon reaches: from the start state, a request whose
    send (if it makes one) finds a free worker, or the completion of a
    parse some worker is running. *)
Inductive reachable (n : Z) : system → Prop :=
| reach_start : reachable n startSystem
| reach_request st filePath :
    reachable n st →
    (length (working (request n st filePath)) ≤ workers n)%nat →
    reachable n (request n st filePath)
| reach_complete st tudb :
    reachable n st →
    tudbFile tudb ∈ working st →
    reachable n (complete st tudb).

(** Events of a run, to execute one. *)
Inductive event : Type :=
| Request (filePath : string)
| Complete (tudb : symbolsTUDB).

Definition runEvent (n : Z) (st : system) (e : event) : system :=
  match e with
  | Request f => request n st f
  | Complete t => complete st t
  end.

Definition run (n : Z) (es : list event) : system :=
  fold_left (runEvent n) es startSystem.

(** A run that stops at the first event the daemon cannot take: a request
    whose send finds no free worker, or a completion no worker can send. *)
Fixpoint runFrom (n : Z) (st : system) (es : list event) : option system :=
  match es with
  | [] => Some st
  | Request f :: es' =>
      let st' := request n st f in
      if bool_decide (length (working st') ≤ workers n)%nat
      then runFrom n st' es' else None
  | Complete t :: es' =>
      if bool_decide (tudbFile t ∈ working st)
      then runFrom n (complete st t) es' else None
  end.

(** What every reachable state satisfies: the queue has no duplicates, the
    membership set is the set of its elements, every path marked in flight
    is with a worker, and no more paths are with workers than there are
    workers. *)
Record sched_inv (n : Z) (st : system) : Prop := mkSchedInv {
  inv_queue_nodup : NoDup (toParseQueue (sch st));
  inv_map_queue : toParseMap (sch st) = list_to_set (toParseQueue (sch st));
  inv_inflight_working : inFlight (sch st) ⊆ list_to_set (working st);
  inv_working_workers : (length (working st) ≤ workers n)%nat
}.

End FilesGo.

(** ** Go's [regexp] package, for the two patterns of files.go *)
Module GoRegexp.

(** The syntax the patterns use, with what the derivatives of a pattern
    need ([Fail], [Eps], [Alt]).  Matching is on bytes: every byte of a
    multi-byte character is neither a newline nor a dot, so for these
    patterns it agrees with matching on characters. *)
Inductive regex : Type :=
| Fail                       (* matches nothing *)
| Eps                        (* matches the empty string *)
| Lit (c : ascii)            (* a literal, as [\.] and [c] *)
| NotLit (c : ascii)         (* the negated class [[^c]]; a newline is in it *)
| AnyChar                    (* [.]: any character but a newline *)
| Cat (r1 r2 : regex)
| Alt (r1 r2 : regex)
| Star (r : regex).

Definition newline : ascii := "010"%char.

Fixpoint nullable (r : regex) : bool :=
  match r with
  | Fail | Lit _ | NotLit _ | AnyChar => false
  | Eps | Star _ => true
  | Cat r1 r2 => nullable r1 && nullable r2
  | Alt r1 r2 => nullable r1 || nullable r2
  end.

(** What is left of [r] to match after the byte [x]. *)
Fixpoint deriv (x : ascii) (r : regex) : regex :=
  match r with
  | Fail | Eps => Fail
  | Lit c => if bool_decide (x = c) then Eps else Fail
  | NotLit c => if bool_decide (x = c) then Fail else Eps
  | AnyChar => if bool_decide (x = newline) then Fail else Eps
  | Cat r1 r2 =>
      if nullable r1 then Alt (Cat (deriv x r1) r2) (deriv x r2)
      else Cat (deriv x r1) r2
  | Alt r1 r2 => Alt (deriv x r1) (deriv x r2)
  | Star r1 => Cat (deriv x r1) (Star r1)
  end.

(** [regexp.MatchString] for a pattern of the form [^r$]: the whole string
    matches [r]. *)
Fixpoint MatchString (r : regex) (s : string) : bool :=
  match s with
  | EmptyString => nullable r
  | String x s' => MatchString (deriv x r) s'
  end.

(** The strings a pattern denotes. *)
Inductive matches : regex → string → Prop :=
| matches_eps : matches Eps ""
| matches_lit c : matches (Lit c) (String c "")
| matches_notlit c x : x ≠ c → matches (NotLit c) (String x "")
| matches_any x : x ≠ newline → matches AnyChar (String x "")
| matches_cat r1 r2 s1 s2 :
    matches r1 s1 → matches r2 s2 → matches (Cat r1 r2) (s1 +:+ s2)
| matches_alt_l r1 r2 s : matches r1 s → matches (Alt r1 r2) s
| matches_alt_r r1 r2 s : matches r2 s → matches (Alt r1 r2) s
| matches_star_nil r : matches (Star r) ""
| matches_star_cons r s1 s2 :
    matches r s1 → matches (Star r) s2 → matches (Star r) (s1 +:+ s2).

End GoRegexp.

(** ** files.go: file names, events and the directory walk *)
Module FilesEvents.
Import GoRegexp ParseGo FilesGo.

(** const validCString string = `^[^\.].*\.c$` *)
Definition validCString : regex :=
  Cat (NotLit ".") (Cat (Star AnyChar) (Cat (Lit ".") (Lit "c"))).

(** const validHString string = `^[^\.].*\.h$` *)
Definition validHString : regex :=
  Cat (NotLit ".") (Cat (Star AnyChar) (Cat (Lit ".") (Lit "h"))).

(** fsnotify.Event and the bits of fsnotify.Op (Create Op = 1 << iota, then
    Write, Remove, Rename, Chmod). *)
Record Event := mkEvent {
  Name : string;
  Op : Z
}.

Definition fsnotify_Create : Z := 1.
Definition fsnotify_Write : Z := 2.
Definition fsnotify_Remove : Z := 4.
Definition fsnotify_Rename : Z := 8.
Definition fsnotify_Chmod : Z := 16.

(** event.Op&(mask) != 0 *)
Definition hasOp (op mask : Z) : bool := negb (Z.land op mask =? 0)%Z.

(** What the handlers ask of the database (symbols-db.go, not among the
    sources read here) and of the operating system: db.GetIncluders ([None]
    is its error), db.FileExist, os.Stat as isDirectory reads it, and
    os.Lstat of the root of a walk with the tree below it. *)
Inductive statResult : Type :=
| StatOk (isDir : bool)
| StatNotExist
| StatError.

(** A file or a directory as filepath.Walk meets it: the name its FileInfo
    reports and, for a directory, its entries in the order of the listing.
    Errors while reading below the root are not part of this model. *)
Inductive fsNode : Type :=
| FsFile (name : string)
| FsDir (name : string) (entries : list fsNode).

Definition nodeName (node : fsNode) : string :=
  match node with
  | FsFile name | FsDir name _ => name
  end.

Record World := mkWorld {
  GetIncluders : string → option (list string);
  FileExist : string → bool;
  Stat : string → statResult;
  Lstat : string → option fsNode
}.

(** The calls the handlers make on the database and on the watcher. *)
Inductive call : Type :=
| RemoveFileReferences (file : string)
| WatcherAdd (path : string)
| WatcherRemove (path : string).

(** What traversePath hands to its three visitors. *)
Inductive walkVisit : Type :=
| VisitDir (path : string)
| VisitC (path : string)
| VisitRest (path : string).

(** info.Name() != "." && info.Name()[0] == '.'; [None] is the index out
    of range on an empty name. *)
Definition hiddenDir (name : string) : option bool :=
  if bool_decide (name ≠ ".") then
    match name with
    | String c _ => Some (bool_decide (c = "."%char))
    | EmptyString => None
    end
  else Some false.

(** The loop of filepath.Walk over the entries of a directory: each entry
    is walked under the joined path, and a panic stops the walk. *)
Definition walkEntries (walkNode : string → fsNode → option (list walkVisit))
    (path : string) : list fsNode → option (list walkVisit) :=
  fix go (l : list fsNode) : option (list walkVisit) :=
    match l with
    | [] => Some []
    | child :: l' =>
        match walkNode (Filepath.Join2 path (nodeName child)) child with
        | None => None
        | Some vs =>
            match go l' with
            | None => None
            | Some vs' => Some (vs ++ vs')
            end
        end
    end.

(** The function traversePath passes to filepath.Walk, along the walk: a
    directory is reported and then its entries are walked, each under the
    joined path; a directory with a hidden name is skipped with all below
    it; a file goes to visitC or to visitRest by the pattern validCString
    on its path. *)
Fixpoint walk (path : string) (node : fsNode) {struct node} : option (list walkVisit) :=
  match node with
  | FsFile _ =>
      Some [if MatchString validCString path then VisitC path else VisitRest path]
  | FsDir name entries =>
      match hiddenDir name with
      | None => None
      | Some true => Some []
      | Some false =>
          match walkEntries walk path entries with
          | None => None
          | Some vs => Some (VisitDir path :: vs)
          end
      end
  end.

(** func traversePath(path, visitDir, visitC, visitRest): the visits in
    order; a root that cannot be read is logged and skipped. *)
Definition traversePath (w : World) (path : string) : option (list walkVisit) :=
  match Lstat w path with
  | None => Some []
  | Some node => walk path node
  end.

(** What a handler leaves: the scheduler state, the sends, and the calls. *)
Definition outcome : Type := sched * list effect * list call.

(** func parseIncluders(headerPath string); [None] is log.Panic(err). *)
Definition parseIncluders (n : Z) (w : World) (s : sched) (headerPath : string)
  : option outcome :=
  match GetIncluders w headerPath with
  | None => None
  | Some toParse =>
      let '(s', es) := queueFilesToParse n s toParse in Some (s', es, [])
  end.

(** func handleFileChange(event fsnotify.Event) *)
Definition handleFileChange (n : Z) (w : World) (s : sched) (event : Event)
  : option outcome :=
  let validC := MatchString validCString (Name event) in
  let validH := MatchString validHString (Name event) in
  if validC then
    if hasOp (Op event) (Z.lor fsnotify_Create fsnotify_Write) then
      let '(s', es) := queueFilesToParse n s [Name event] in Some (s', es, [])
    else if hasOp (Op event) (Z.lor fsnotify_Remove fsnotify_Rename) then
      Some (s, [], [RemoveFileReferences (Name event)])
    else Some (s, [], [])
  else if validH then
    if hasOp (Op event)
         (Z.lor (Z.lor (Z.lor fsnotify_Write fsnotify_Remove) fsnotify_Rename)
            fsnotify_Create)
    then parseIncluders n w s (Name event)
    else Some (s, [], [])
  else Some (s, [], []).

(** The three visitors of handleDirChange, over the visits of the walk. *)
Fixpoint visitNewDir (n : Z) (s : sched) (vs : list walkVisit) : outcome :=
  match vs with
  | [] => (s, [], [])
  | v :: vs' =>
      match v with
      | VisitDir path =>
          let '(s', es, cs) := visitNewDir n s vs' in
          (s', es, WatcherAdd path :: cs)
      | VisitC path =>
          let '(s1, e1) := queueFilesToParse n s [path] in
          let '(s', es, cs) := visitNewDir n s1 vs' in
          (s', e1 ++ es, cs)
      | VisitRest _ => visitNewDir n s vs'
      end
  end.

(** func handleDirChange(event fsnotify.Event) *)
Definition handleDirChange (n : Z) (w : World) (s : sched) (event : Event)
  : option outcome :=
  if hasOp (Op event) fsnotify_Create then
    match traversePath w (Name event) with
    | None => None
    | Some vs => Some (visitNewDir n s vs)
    end
  else if hasOp (Op event) (Z.lor fsnotify_Remove fsnotify_Rename) then
    Some (s, [], [WatcherRemove (Name event)])
  else Some (s, [], []).

(** [filepath.Base]: the last element of the path, trailing separators
    removed; [.] for the empty path and the separator for a path of
    separators only. *)
Definition Base (path : string) : string :=
  if bool_decide (path = "") then "."
  else match last (filter (λ c, c ≠ "") (GoStrings.splitOn Filepath.Separator path)) with
       | Some c => c
       | None => "/"
       end.

(** func handleChange(event fsnotify.Event); [None] is a panic. *)
Definition handleChange (n : Z) (w : World) (s : sched) (event : Event)
  : option outcome :=
  match Base (Name event) with
  | EmptyString => None
  | String c _ =>
      if bool_decide (c = "."%char) then Some (s, [], [])
      else
        let dispatch (isDir : bool) :=
          if isDir then handleDirChange n w s event
          else handleFileChange n w s event in
        match Stat w (Name event) with
        | StatNotExist => dispatch (negb (FileExist w (Name event)))
        | StatError => Some (s, [], [])
        | StatOk isDir => dispatch isDir
        end
  end.

(** A relative path that starts by going up: [..] or [../] and more. *)
Definition dotdotPath (path : string) : Prop :=
  path = ".." ∨ GoStrings.HasPrefix path "../" = true.


End FilesEvents.

Import GoStrings Filepath ParseGo FilesGo GoRegexp FilesEvents.

(** * Lemmas *)

(** ** The scheduler *)
Section Scheduler.
Implicit Types (s : sched) (st : system) (f : string) (n : Z).

Lemma runFrom_reachable n es : ∀ st st',
  reachable n st → runFrom n st es = Some st' → reachable n st'.
Proof.
  induction es as [|e es IH]; intros st st' Hr Hrun; simpl in Hrun.
  - congruence.
  - destruct e as [f|t]; case_bool_decide; try discriminate.
    + eapply IH; [|exact Hrun]. by apply reach_request.
    + eapply IH; [|exact Hrun]. by apply reach_complete.
Qed.

Lemma runFrom_run n es : ∀ st st',
  runFrom n st es = Some st' → fold_left (runEvent n) es st = st'.
Proof.
  induction es as [|e es IH]; intros st st' Hrun; simpl in *.
  - congruence.
  - destruct e; case_bool_decide; try discriminate; by apply IH.
Qed.

Lemma size_list_to_set_le (l : list string) :
  size (list_to_set l : gset string) ≤ length l.
Proof.
  induction l as [|x l IH].
  - by rewrite list_to_set_nil, size_empty.
  - rewrite list_to_set_cons, size_union_alt, size_singleton. simpl.
    assert (size (list_to_set l ∖ {[x]} : gset string) ≤ size (list_to_set l : gset string))
      by (apply subseteq_size; set_solver).
    lia.
Qed.

Lemma elem_of_removeOne_ne f x (l : list string) :
  x ≠ f → x ∈ l → x ∈ removeOne f l.
Proof.
  intros Hne. induction l as [|y l IH]; simpl; [done|].
  intros Hin. case_bool_decide; set_solver.
Qed.

Lemma length_removeOne f (l : list string) :
  f ∈ l → S (length (removeOne f l)) = length l.
Proof.
  induction l as [|y l IH]; simpl; [set_solver|].
  intros Hin. case_bool_decide; [done|].
  simpl. f_equal. apply IH. set_solver.
Qed.

Lemma sched_inv_start n : sched_inv n startSystem.
Proof. split; simpl; [constructor|done|done|lia]. Qed.

(** The three ways through queueFileToParse. *)
Lemma queueFileToParse_cases n s f :
  ((Z.of_nat (size (inFlight s)) < n)%Z ∧ (f ∉ inFlight s) ∧
     queueFileToParse n s f =
       (mkSched (toParseMap s) (toParseQueue s) ({[f]} ∪ inFlight s),
        [SendParseFile f]))
  ∨ (¬ ((Z.of_nat (size (inFlight s)) < n)%Z ∧ f ∉ inFlight s) ∧
     (f ∉ toParseMap s) ∧
     queueFileToParse n s f =
       (mkSched ({[f]} ∪ toParseMap s) (toParseQueue s ++ [f]) (inFlight s), []))
  ∨ (¬ ((Z.of_nat (size (inFlight s)) < n)%Z ∧ f ∉ inFlight s) ∧
     (f ∈ toParseMap s) ∧
     queueFileToParse n s f = (s, [])).
Proof.
  unfold queueFileToParse.
  destruct (decide (Z.of_nat (size (inFlight s)) < n)%Z) as [Hlt|Hlt];
    destruct (decide (f ∈ inFlight s)) as [Hin|Hin];
    destruct (decide (f ∈ toParseMap s)) as [Hq|Hq];
    repeat first [rewrite (bool_decide_eq_true_2 _ Hlt)
                 |rewrite (bool_decide_eq_false_2 _ Hlt)
                 |rewrite (bool_decide_eq_true_2 _ Hin)
                 |rewrite (bool_decide_eq_false_2 _ Hin)
                 |rewrite (bool_decide_eq_true_2 _ Hq)
                 |rewrite (bool_decide_eq_false_2 _ Hq)];
    simpl; tauto.
Qed.

Lemma sched_inv_request n st f :
  sched_inv n st →
  length (working (request n st f)) ≤ workers n →
  sched_inv n (request n st f).
Proof.
  intros [Hnd Hmap Hsub Hlen]. unfold request.
  destruct (queueFileToParse_cases n (sch st) f)
    as [(_ & _ & ->)|[(_ & Hq & ->)|(_ & _ & ->)]]; simpl; intros Hlen'.
  - split; simpl; [done|done| |done].
    rewrite list_to_set_app_L. set_solver.
  - split; simpl; rewrite ?app_nil_r; try done.
    + apply NoDup_app. split_and!; [done| |apply NoDup_singleton].
      intros x Hx Hx'. apply list_elem_of_singleton in Hx' as ->.
      apply Hq. rewrite Hmap. by apply elem_of_list_to_set.
    + rewrite list_to_set_app_L, Hmap. set_solver.
  - rewrite app_nil_r in *. by destruct st.
Qed.

Lemma sched_inv_complete n st tudb :
  sched_inv n st →
  tudbFile tudb ∈ working st →
  sched_inv n (complete st tudb).
Proof.
  intros [Hnd Hmap Hsub Hlen] Hin. unfold complete, doneFileToParse.
  pose proof (length_removeOne _ _ Hin) as Hrem.
  assert (Hsub' : inFlight (sch st) ∖ {[tudbFile tudb]}
                  ⊆ list_to_set (removeOne (tudbFile tudb) (working st))).
  { intros x [Hx Hne]%elem_of_difference. apply elem_of_list_to_set.
    apply elem_of_removeOne_ne; [set_solver|].
    pose proof (Hsub x Hx) as Hw. by rewrite elem_of_list_to_set in Hw. }
  destruct (toParseQueue (sch st)) as [|h q] eqn:Hq; simpl.
  - split; simpl.
    + constructor.
    + by rewrite Hmap.
    + rewrite list_to_set_app_L. set_solver.
    + destruct (negb _); simpl; rewrite app_nil_r; lia.
  - apply NoDup_cons in Hnd as [Hh Hnd].
    assert (Hsent : ∀ e1 : list effect,
               (e1 = [InsertTUDB tudb] ∨ e1 = []) →
               sent (e1 ++ [SendParseFile h]) = [h]).
    { by intros e1 [-> | ->]. }
    rewrite Hsent by (destruct (negb _); auto).
    split; simpl.
    + done.
    + rewrite Hmap. simpl.
      assert (h ∉ (list_to_set q : gset string)) by by rewrite elem_of_list_to_set.
      set_solver.
    + rewrite list_to_set_app_L. set_solver.
    + rewrite length_app. simpl. lia.
Qed.

Lemma reachable_inv n st : reachable n st → sched_inv n st.
Proof.
  induction 1 as [|st f _ IH Hlen|st tudb _ IH Hin].
  - apply sched_inv_start.
  - by apply sched_inv_request.
  - by apply sched_inv_complete.
Qed.

Lemma inv_inflight_size n st :
  sched_inv n st → size (inFlight (sch st)) ≤ workers n.
Proof.
  intros [_ _ Hsub Hlen].
  etrans; [apply (subseteq_size _ _ Hsub)|].
  etrans; [apply size_list_to_set_le|done].
Qed.

End Scheduler.

(** ** The argument resolver *)
Section Resolver.
Context (env : Env) (argsList : list string) (path : string).

(** fixCompDirArg never fails on an index. *)
Lemma fixCompDirArg_not_index argDir :
  fixCompDirArg env argDir path ≠ Panic IndexOutOfRange.
Proof.
  unfold fixCompDirArg, Abs.
  repeat first [done | case_match].
Qed.

(** An iteration fails on an index only at a bare flag with no next token. *)
Lemma getCompArgsStep_index i arg args :
  getCompArgsStep env argsList path i arg args = Panic IndexOutOfRange →
  (arg = "-D" ∨ arg = "-I") ∧ argsList !! (i + 1) = None.
Proof.
  unfold getCompArgsStep.
  case_bool_decide as HD.
  { destruct (argsList !! (i + 1)); [done|]. auto. }
  destruct (HasPrefix arg "-D"); [done|].
  case_bool_decide as HI.
  { destruct (argsList !! (i + 1)) as [next|]; [|auto].
    pose proof (fixCompDirArg_not_index next).
    destruct (fixCompDirArg env next path) as [?|[]]; simpl; congruence. }
  destruct (HasPrefix arg "-I"); [|done].
  pose proof (fixCompDirArg_not_index (ReplaceFirst arg "-I" "")).
  destruct (fixCompDirArg env (ReplaceFirst arg "-I" "") path) as [?|[]];
    simpl; congruence.
Qed.

(** A bare flag at the last index fails, on the index. *)
Lemma getCompArgsStep_last i arg args :
  arg = "-D" ∨ arg = "-I" → argsList !! (i + 1) = None →
  getCompArgsStep env argsList path i arg args = Panic IndexOutOfRange.
Proof.
  intros [-> | ->] Hnone; unfold getCompArgsStep; simpl; by rewrite Hnone.
Qed.

(** The loop, one more token at the end. *)
Lemma getCompArgsLoop_snoc rest arg : ∀ i args,
  getCompArgsLoop env argsList path i (rest ++ [arg]) args =
    (letP args' := getCompArgsLoop env argsList path i rest args in
     getCompArgsStep env argsList path (i + length rest) arg args').
Proof.
  induction rest as [|x rest IH]; intros i args; simpl.
  - rewrite Nat.add_0_r. by destruct (getCompArgsStep _ _ _ _ _ _).
  - destruct (getCompArgsStep env argsList path i x args) as [a|p]; simpl; [|done].
    rewrite IH. by replace (S i + length rest) with (i + S (length rest)) by lia.
Qed.

(** Where the loop fails on an index, the token list ends in a bare flag. *)
Lemma getCompArgsLoop_index rest : ∀ i args,
  drop i argsList = rest →
  getCompArgsLoop env argsList path i rest args = Panic IndexOutOfRange →
  last argsList = Some "-D" ∨ last argsList = Some "-I".
Proof.
  induction rest as [|arg rest IH]; intros i args Hdrop; simpl; [done|].
  destruct (getCompArgsStep env argsList path i arg args) as [a|p] eqn:Hstep; simpl.
  - apply IH. replace (S i) with (i + 1) by lia.
    by rewrite <- drop_drop, Hdrop.
  - intros [= ->]. apply getCompArgsStep_index in Hstep as [Harg Hnone].
    assert (Hlen : length argsList = S i).
    { apply lookup_ge_None in Hnone.
      assert (i < length argsList).
      { apply lookup_lt_is_Some. rewrite <- (Nat.add_0_r i), <- lookup_drop, Hdrop.
        by eexists. }
      lia. }
    assert (Hlast : last argsList = Some arg).
    { rewrite last_lookup, Hlen. simpl.
      rewrite <- (Nat.add_0_r i), <- lookup_drop, Hdrop. done. }
    rewrite Hlast. destruct Harg as [-> | ->]; auto.
Qed.

End Resolver.

(** ** Loading the compilation databases *)
Section Loading.
Context (env : Env).

(** A directory whose database cannot be opened for a reason other than
    permission is skipped. *)
Lemma newParserLoop_skip l1 path l2 : ∀ m,
  Open env (compileDb path) = ErrNotExist ∨ Open env (compileDb path) = ErrOther →
  newParserLoop env (l1 ++ path :: l2) m = newParserLoop env (l1 ++ l2) m.
Proof.
  induction l1 as [|d l1 IH]; intros m Hopen; simpl.
  - by destruct Hopen as [-> | ->].
  - destruct (Open env (compileDb d)) as [[l|]| | |];
      try done; try by apply IH.
    destruct (fixPaths env l d) as [l'|]; simpl; [|done].
    destruct (indexCompArgs env d l' m) as [m'|]; simpl; [|done].
    by apply IH.
Qed.

(** A directory whose database is unreadable, by permission or by content,
    aborts the loop, unless an earlier directory already did. *)
Lemma newParserLoop_abort dirs path : ∀ m,
  path ∈ dirs →
  Open env (compileDb path) = ErrPermission ∨ Open env (compileDb path) = Opened None →
  ∃ p, newParserLoop env dirs m = Panic p.
Proof.
  induction dirs as [|d dirs IH]; intros m Hin Hopen; [by apply elem_of_nil in Hin|].
  simpl. destruct (decide (d = path)) as [->|Hne].
  - destruct Hopen as [-> | ->]; eauto.
  - assert (path ∈ dirs) by set_solver.
    destruct (Open env (compileDb d)) as [[l|]| | |]; eauto.
    destruct (fixPaths env l d) as [l'|]; simpl; eauto.
    destruct (indexCompArgs env d l' m) as [m'|]; simpl; eauto.
Qed.

(** Directories without a database leave the mapping as it is. *)
Lemma newParserLoop_absent dirs : ∀ m,
  (∀ path, path ∈ dirs → Open env (compileDb path) = ErrNotExist) →
  newParserLoop env dirs m = Ok m.
Proof.
  induction dirs as [|d dirs IH]; intros m Hall; simpl; [done|].
  rewrite (Hall d) by set_solver. apply IH. intros; apply Hall; set_solver.
Qed.

End Loading.

(** ** The cursor tree *)

(** Induction on a cursor with the children as induction hypotheses. *)
Lemma Cursor_tree_ind (P : Cursor → Prop)
  (Hnode : ∀ d r df inc cs, Forall P cs → P (mkCursor d r df inc cs)) :
  ∀ c, P c.
Proof.
  fix IH 1. intros [d r df inc cs]. apply Hnode.
  induction cs as [|c cs IHcs]; constructor; [apply IH|apply IHcs].
Qed.

Lemma classify_entrySymbol c cur e sym :
  e ∈ classify c cur → entrySymbol e = Some sym → sym = cur.
Proof.
  unfold classify. intros He Hs.
  repeat case_match; set_solver.
Qed.

Lemma visitNode_skip c :
  IsNull (data c) = true ∨ Clean (LocFile (data c)) = "." →
  visitNode c = ([], ChildVisit_Continue).
Proof.
  unfold visitNode, getSymbolFromCursor.
  intros [-> | Hdot]; [done|].
  destruct (IsNull (data c)); [done|]. simpl.
  rewrite Hdot. done.
Qed.

Lemma visitNode_entries c e :
  e ∈ (visitNode c).1 →
  ∃ cur, getSymbolFromCursor (data c) = Some cur
         ∧ locFile (loc cur) ≠ "" ∧ locFile (loc cur) ≠ "."
         ∧ e ∈ classify c cur.
Proof.
  unfold visitNode.
  destruct (getSymbolFromCursor (data c)) as [cur|]; simpl; [|set_solver].
  case_bool_decide as Hf; simpl; [set_solver|].
  intros He. exists cur. split_and!; [done|tauto|tauto|done].
Qed.

Lemma visit_entries_located : ∀ c e sym,
  e ∈ visit c → entrySymbol e = Some sym →
  locFile (loc sym) ≠ "" ∧ locFile (loc sym) ≠ ".".
Proof.
  induction c as [d r df inc cs IH] using Cursor_tree_ind.
  intros e sym He Hs. simpl in He.
  pose proof (visitNode_entries (mkCursor d r df inc cs) e) as Hnode.
  destruct (visitNode (mkCursor d r df inc cs)) as [es []]; simpl in *.
  - destruct (Hnode He) as (cur & _ & H1 & H2 & Hc).
    by rewrite (classify_entrySymbol _ _ _ _ Hc Hs).
  - apply elem_of_app in He as [He|He].
    + destruct (Hnode He) as (cur & _ & H1 & H2 & Hc).
      by rewrite (classify_entrySymbol _ _ _ _ Hc Hs).
    + apply list_elem_of_In, in_flat_map in He as (c' & Hc' & He).
      apply list_elem_of_In in Hc', He.
      rewrite Forall_forall in IH. eapply IH; eauto.
Qed.

(** * The scheduler claims *)

(** Closed runs are settled by evaluation. *)
Ltac run_reachable :=
  match goal with
  | |- reachable ?n (run _ ?es) =>
      apply (runFrom_reachable n es startSystem);
      [apply reach_start | vm_compute; reflexivity]
  end.

Ltac by_eval := apply (bool_decide_unpack _); vm_compute; exact I.

(** C1, as stated, fails: with one worker, a path requested twice is in the
    In-Flight Set (first request) and in the backlog membership set (second
    request, made while its parse runs) at the same time. *)
Lemma C1_counterexample :
  let st := run 1 [Request "a"; Request "a"] in
  reachable 1 st ∧ "a" ∈ inFlight (sch st) ∧ "a" ∈ toParseMap (sch st).
Proof.
  cbv zeta. split; [run_reachable|]. split; by_eval.
Qed.

(** C1, amended: in every reachable state the Backlog Queue holds each path at
    most once and the membership set is exactly the set of queued paths; a
    request for a path that is in neither set puts it in exactly one of
    the two; and a request adds a path to the backlog only when that path is
    in flight or the In-Flight Set has reached the configured count. *)
Theorem C1_backlog_membership (n : Z) (st : system) :
  reachable n st →
  NoDup (toParseQueue (sch st))
  ∧ (∀ f, f ∈ toParseMap (sch st) ↔ f ∈ toParseQueue (sch st))
  ∧ (∀ f, f ∉ inFlight (sch st) → f ∉ toParseMap (sch st) →
       let s' := (queueFileToParse n (sch st) f).1 in
       (f ∈ inFlight s' ∨ f ∈ toParseMap s')
       ∧ ¬ (f ∈ inFlight s' ∧ f ∈ toParseMap s'))
  ∧ (∀ f, let s' := (queueFileToParse n (sch st) f).1 in
       f ∉ toParseMap (sch st) → f ∈ toParseMap s' →
       f ∈ inFlight (sch st) ∨ (n ≤ Z.of_nat (size (inFlight (sch st))))%Z).
Proof.
  intros Hr. destruct (reachable_inv _ _ Hr) as [Hnd Hmap _ _].
  split_and!.
  - done.
  - intros f. by rewrite Hmap, elem_of_list_to_set.
  - intros f Hif Hq.
    destruct (queueFileToParse_cases n (sch st) f)
      as [(_ & _ & ->)|[(_ & _ & ->)|(_ & Hq' & _)]]; simpl; [set_solver..|done].
  - intros f.
    destruct (queueFileToParse_cases n (sch st) f)
      as [(_ & _ & ->)|[(Hno & _ & ->)|(_ & _ & ->)]]; simpl; [done| |done].
    intros _ _. destruct (decide (f ∈ inFlight (sch st))); [by left|right].
    destruct (decide (Z.of_nat (size (inFlight (sch st))) < n)%Z); [|lia].
    exfalso. by apply Hno.
Qed.

Lemma C1_backlog_membership_witness :
  let st := run 1 [Request "a"; Request "a"] in
  reachable 1 st ∧ NoDup (toParseQueue (sch st)).
Proof.
  assert (Hr : reachable 1 (run 1 [Request "a"; Request "a"])) by run_reachable.
  split; [exact Hr|]. exact (proj1 (C1_backlog_membership 1 _ Hr)).
Defined.

(** queueFileToParse sends a path to a worker only when the path is not
    marked in flight. *)
Lemma queueFileToParse_sends_fresh (n : Z) (s : sched) (f g : string) :
  g ∈ sent (queueFileToParse n s f).2 → g = f ∧ f ∉ inFlight s.
Proof.
  destruct (queueFileToParse_cases n s f)
    as [(_ & Hni & ->)|[(_ & _ & ->)|(_ & _ & ->)]]; simpl; set_solver.
Qed.

(** C2, the code at the failing run: with two workers, after requests for a,
    a again and b, path a is being parsed and is queued; the completion of b
    pops a and sends it to a worker although the parse of a already handed
    out has not completed, so two parses of a run at once. *)
Lemma C2_double_dispatch :
  let st := run 2 [Request "a"; Request "a"; Request "b"] in
  let tudb := mkSymbolsTUDB "b" 0 [] in
  reachable 2 st
  ∧ working st = ["a"; "b"]
  ∧ sent (doneFileToParse (sch st) tudb).2 = ["a"]
  ∧ reachable 2 (complete st tudb)
  ∧ working (complete st tudb) = ["a"; "a"]
  ∧ sent (trace (complete st tudb)) = ["a"; "b"; "a"].
Proof.
  assert (Hr : reachable 2 (run 2 [Request "a"; Request "a"; Request "b"]))
    by run_reachable.
  split_and!; [exact Hr|by vm_compute|by vm_compute| |by vm_compute|by vm_compute].
  apply reach_complete; [exact Hr|by_eval].
Qed.

(** C3: doneFileToParse hands the snapshot to db.InsertTUDB if and only if
    the snapshot's file is not in the backlog membership set when it is
    called; a snapshot whose file is queued is not inserted, and the
    database is then left as it was, whatever the database and its insert. *)
Theorem C3_commit_iff_not_queued (s : sched) (tudb : symbolsTUDB) :
  let es := (doneFileToParse s tudb).2 in
  (tudb ∈ inserted es ↔ tudbFile tudb ∉ toParseMap s)
  ∧ (tudbFile tudb ∉ toParseMap s →
       inserted es = [tudb]
       ∧ ∀ (DB : Type) (insert : DB → symbolsTUDB → DB) (db : DB),
           applyDB insert db es = insert db tudb)
  ∧ (tudbFile tudb ∈ toParseMap s →
       inserted es = []
       ∧ ∀ (DB : Type) (insert : DB → symbolsTUDB → DB) (db : DB),
           applyDB insert db es = db).
Proof.
  unfold doneFileToParse.
  destruct (decide (tudbFile tudb ∈ toParseMap s)) as [Hq|Hq].
  - rewrite (bool_decide_eq_true_2 _ Hq).
    destruct (toParseQueue s); simpl; split_and!; try done; set_solver.
  - rewrite (bool_decide_eq_false_2 _ Hq).
    destruct (toParseQueue s); simpl; split_and!; try done; set_solver.
Qed.

Lemma C3_commit_iff_not_queued_witness :
  let s := (queueFileToParse 1 (queueFileToParse 1 startState "a").1 "a").1 in
  let tudb := mkSymbolsTUDB "a" 0 [] in
  inserted (doneFileToParse s tudb).2 = [].
Proof.
  cbv zeta.
  refine (proj1 (proj2 (proj2 (C3_commit_iff_not_queued _ _)) _)).
  by_eval.
Defined.

(** C6: in every reachable state the In-Flight Set is no larger than the
    number of workers (the configured count N); queueFileToParse adds to the
    set only when its size is below N, and doneFileToParse removes the
    completed file and then adds at most the head of the backlog. *)
Theorem C6_inflight_bounded (n : Z) (st : system) :
  reachable n st →
  size (inFlight (sch st)) ≤ workers n
  ∧ ((0 ≤ n)%Z → (Z.of_nat (size (inFlight (sch st))) ≤ n)%Z)
  ∧ (∀ f, inFlight (queueFileToParse n (sch st) f).1 ≠ inFlight (sch st) →
          (Z.of_nat (size (inFlight (sch st))) < n)%Z)
  ∧ (∀ tudb, inFlight (doneFileToParse (sch st) tudb).1
             = list_to_set (take 1 (toParseQueue (sch st)))
               ∪ (inFlight (sch st) ∖ {[tudbFile tudb]})).
Proof.
  intros Hr. pose proof (inv_inflight_size _ _ (reachable_inv _ _ Hr)) as Hsz.
  unfold workers in Hsz. split_and!.
  - exact Hsz.
  - lia.
  - intros f.
    destruct (queueFileToParse_cases n (sch st) f)
      as [(Hlt & _ & ->)|[(_ & _ & ->)|(_ & _ & ->)]]; simpl; done.
  - intros tudb. unfold doneFileToParse.
    destruct (toParseQueue (sch st)); simpl; set_solver.
Qed.

Lemma C6_inflight_bounded_witness :
  let st := run 2 [Request "a"; Request "b"; Request "c"; Complete (mkSymbolsTUDB "a" 0 [])] in
  reachable 2 st ∧ size (inFlight (sch st)) ≤ workers 2.
Proof.
  assert (Hr : reachable 2
            (run 2 [Request "a"; Request "b"; Request "c";
                    Complete (mkSymbolsTUDB "a" 0 [])])) by run_reachable.
  split; [exact Hr|]. exact (proj1 (C6_inflight_bounded 2 _ Hr)).
Defined.

(** A request for a queued path changes nothing as long as the path is in
    flight or the In-Flight Set is full. *)
Lemma queued_request_noop (n : Z) (s : sched) (f : string) :
  f ∈ toParseMap s →
  f ∈ inFlight s ∨ (n ≤ Z.of_nat (size (inFlight s)))%Z →
  queueFileToParse n s f = (s, []).
Proof.
  intros Hq Hfull.
  destruct (queueFileToParse_cases n s f)
    as [(Hlt & Hni & _)|[(_ & Hnq & _)|(_ & _ & ->)]]; [|done|done].
  destruct Hfull; [done|lia].
Qed.

(** C7, the code at the failing run: with three workers, path c is queued
    once (requested while its parse runs); after that parse completes c is
    still queued and no longer in flight, a slot is free, and the next request
    for c does not leave the state unchanged: it sends c to a worker and
    leaves it in the backlog, from where the next completion sends it again. *)
Lemma C7_queued_request_dispatches :
  let st := run 3 [Request "a"; Request "a"; Request "c"; Request "c";
                   Complete (mkSymbolsTUDB "c" 0 [])] in
  let st' := request 3 st "c" in
  reachable 3 st
  ∧ toParseQueue (sch st) = ["c"]
  ∧ "c" ∈ toParseMap (sch st)
  ∧ ("c" ∉ working st)
  ∧ sent (queueFileToParse 3 (sch st) "c").2 = ["c"]
  ∧ reachable 3 st'
  ∧ toParseQueue (sch st') = ["c"]
  ∧ sent (doneFileToParse (sch st') (mkSymbolsTUDB "a" 0 [])).2 = ["c"]
  ∧ sent (trace (complete st' (mkSymbolsTUDB "a" 0 []))) = ["a"; "c"; "a"; "c"; "c"].
Proof.
  assert (Hr : reachable 3
            (run 3 [Request "a"; Request "a"; Request "c"; Request "c";
                    Complete (mkSymbolsTUDB "c" 0 [])])) by run_reachable.
  split_and!; [exact Hr|by vm_compute|by_eval|by_eval|by vm_compute|
               |by vm_compute|by vm_compute|by vm_compute].
  apply reach_request; [exact Hr|]. apply (bool_decide_unpack _). by vm_compute.
Qed.

(** * The parser claims *)

(** C4, the code at the spec's own example: for the command
    gcc -Wall -DFOO -I../inc -c x.c and the absolute root /proj, with the
    daemon started in /home/user, the relative include directory is made
    absolute by filepath.Abs, that is against the working directory: the
    result is -DFOO, -I, /home/inc and not the normalized form of
    /proj/../inc, which is /inc.  Under a relative root the same command is
    anchored at the root (proj/../inc, normalized inc). *)
Lemma C4_absolute_root_anchors_at_working_directory :
  let env := mkEnv (Some "/home/user") (λ _, ErrNotExist) in
  let command := "gcc -Wall -DFOO -I../inc -c x.c" in
  getCompArgs env command "/proj" = Ok ["-DFOO"; "-I"; "/home/inc"]
  ∧ Clean "/proj/../inc" = "/inc"
  ∧ getCompArgs env command "proj" = Ok ["-DFOO"; "-I"; Clean "proj/../inc"]
  ∧ Clean "proj/../inc" = "inc".
Proof. by vm_compute. Qed.

(** Under a relative root a relative include directory is anchored at the
    root. *)
Lemma fixCompDirArg_relative_root (env : Env) (argDir path : string) :
  IsAbs path = false → IsAbs argDir = false →
  fixCompDirArg env argDir path = Ok (Clean (path +:+ "/" +:+ argDir)).
Proof. unfold fixCompDirArg. by intros -> ->. Qed.

(** Under an absolute root the rewritten include directory does not depend
    on the root at all. *)
Lemma fixCompDirArg_absolute_root_ignored (env : Env) (argDir path1 path2 : string) :
  IsAbs path1 = true → IsAbs path2 = true →
  fixCompDirArg env argDir path1 = fixCompDirArg env argDir path2.
Proof. unfold fixCompDirArg. by intros -> ->. Qed.

(** C5, as stated, fails: parsing /proj/a.c for the indexed root /proj, a
    function declaration located in /usr/include/stdio.h, outside the root,
    is recorded in the snapshot. *)
Lemma C5_counterexample :
  let env := mkEnv (Some "/proj") (λ _, ErrNotExist) in
  let printf := mkCursorData false Cursor_FunctionDecl "printf" "c:@F@printf"
                  "/usr/include/stdio.h" 362 12 in
  let null := mkCursorData true Cursor_Other "" "" "" 0 0 in
  let root := mkCursor (mkCursorData false Cursor_Other "a.c" "" "" 0 0) null null ""
                [mkCursor printf null null "" []] in
  let oracle := λ (_ : string) (_ : list string), mkTranslationUnit root (λ _, 0%Z) in
  ∃ pa, newParser env ["/proj"] = Ok pa
        ∧ tudbEntries (Parse oracle pa "/proj/a.c")
          = [InsertSymbolDecl
               (mkSymbolInfo "printf" "c:@F@printf"
                  (mkSymbolLocReq "/usr/include/stdio.h" 362 12))]
        ∧ HasPrefix "/usr/include/stdio.h" "/proj" = false.
Proof. eexists. split_and!; by vm_compute. Qed.

(** C5, amended: a symbol record is emitted for a visited cursor only when
    the cursor is not null and the cleaned name of its location's file is
    neither empty nor the current-directory marker; a cursor that fails this
    test contributes nothing to the snapshot, its subtree included.  The
    indexed roots play no part. *)
Theorem C5_only_located_cursors_recorded (root : Cursor) :
  (∀ e sym, e ∈ Visit root → entrySymbol e = Some sym →
            locFile (loc sym) ≠ "" ∧ locFile (loc sym) ≠ ".")
  ∧ (∀ c, IsNull (data c) = true ∨ Clean (LocFile (data c)) = "." → visit c = []).
Proof.
  split.
  - intros e sym He Hs. unfold Visit in He.
    apply list_elem_of_In, in_flat_map in He as (c & _ & He).
    apply list_elem_of_In in He. by eapply visit_entries_located.
  - intros [d r df inc cs] Hskip. simpl.
    by rewrite (visitNode_skip _ Hskip).
Qed.

(** C8: for a cursor that passes the location test, visitNode makes exactly
    the calls of the table: a macro definition is a declaration with itself
    as definition; a parameter is a declaration exactly when its name is not
    empty; a call expression is a use with is-call true of the referenced
    entity; a direct, type or member reference and a macro expansion is a
    use with is-call false; a function, struct, field, typedef, enum or enum
    constant declaration is a declaration with definition exactly when the
    definition cursor is not null, and a declaration only otherwise. *)
Theorem C8_classification (c : Cursor) (cur : symbolInfo) :
  getSymbolFromCursor (data c) = Some cur →
  locFile (loc cur) ≠ "" → locFile (loc cur) ≠ "." →
  let k := Kind (data c) in
  let calls := (visitNode c).1 in
  let dec := getSymbolFromCursor (Referenced c) in
  (k = Cursor_MacroDefinition → calls = [InsertSymbolDeclWithDef cur cur])
  ∧ (k = Cursor_ParmDecl →
       (Spelling (data c) ≠ "" → calls = [InsertSymbolDecl cur])
       ∧ (Spelling (data c) = "" → calls = []))
  ∧ (k = Cursor_CallExpr → calls = [InsertSymbolUse cur dec true])
  ∧ (k = Cursor_DeclRefExpr ∨ k = Cursor_TypeRef ∨ k = Cursor_MemberRefExpr
     ∨ k = Cursor_MacroExpansion → calls = [InsertSymbolUse cur dec false])
  ∧ (k = Cursor_FunctionDecl ∨ k = Cursor_StructDecl ∨ k = Cursor_FieldDecl
     ∨ k = Cursor_TypedefDecl ∨ k = Cursor_EnumDecl ∨ k = Cursor_EnumConstantDecl →
       (∀ def, getSymbolFromCursor (DefinitionOf c) = Some def →
               calls = [InsertSymbolDeclWithDef cur def])
       ∧ (IsNull (DefinitionOf c) = false →
            ∃ def, getSymbolFromCursor (DefinitionOf c) = Some def)
       ∧ (IsNull (DefinitionOf c) = true → calls = [InsertSymbolDecl cur])).
Proof.
  intros Hcur Hne1 Hne2. cbv zeta. unfold visitNode. rewrite Hcur.
  rewrite bool_decide_eq_false_2 by tauto. simpl. unfold classify.
  split_and!.
  - by intros ->.
  - intros ->. split; intros Hs.
    + by rewrite bool_decide_eq_true_2.
    + by rewrite bool_decide_eq_false_2 by tauto.
  - by intros ->.
  - by intros [-> | [-> | [-> | ->]]].
  - intros Hk.
    split_and!.
    + intros def Hdef.
      destruct Hk as [-> | [-> | [-> | [-> | [-> | ->]]]]]; by rewrite Hdef.
    + intros Hnn. unfold getSymbolFromCursor. rewrite Hnn. eauto.
    + intros Hnull.
      destruct Hk as [-> | [-> | [-> | [-> | [-> | ->]]]]];
        unfold getSymbolFromCursor; by rewrite Hnull.
Qed.

Lemma C8_classification_witness :
  let null := mkCursorData true Cursor_Other "" "" "" 0 0 in
  let c := mkCursor (mkCursorData false Cursor_MacroDefinition "M" "c:b.h@M" "b.h" 1 9)
             null null "" [] in
  (visitNode c).1
  = [InsertSymbolDeclWithDef
       (mkSymbolInfo "M" "c:b.h@M" (mkSymbolLocReq "b.h" 1 9))
       (mkSymbolInfo "M" "c:b.h@M" (mkSymbolLocReq "b.h" 1 9))].
Proof.
  cbv zeta.
  refine (proj1 (C8_classification _
            (mkSymbolInfo "M" "c:b.h@M" (mkSymbolLocReq "b.h" 1 9)) _ _ _) _);
    by vm_compute.
Defined.

(** C9: a root whose compile_commands.json does not exist is passed over and
    contributes no entries (the parser built is the one built without that
    root; with no database anywhere the mapping is empty); a root whose
    database cannot be opened for lack of permission, or whose content the
    JSON decoder rejects, aborts newParser with a panic; and Parse hands the
    oracle the empty argument list for a file that has no entry. *)
Theorem C9_database_loading (env : Env) (dirs : list string) (path : string) :
  (∀ l1 l2, dirs = l1 ++ path :: l2 →
            Open env (compileDb path) = ErrNotExist →
            newParser env dirs = newParser env (l1 ++ l2))
  ∧ ((∀ d, d ∈ dirs → Open env (compileDb d) = ErrNotExist) →
       newParser env dirs = Ok (mkParse ∅))
  ∧ (path ∈ dirs → Open env (compileDb path) = ErrPermission →
       (∃ p, newParser env dirs = Panic p)
       ∧ newParser env (path :: dirs) = Panic PanicOpenCompileDb)
  ∧ (path ∈ dirs → Open env (compileDb path) = Opened None →
       (∃ p, newParser env dirs = Panic p)
       ∧ newParser env (path :: dirs) = Panic PanicDecode)
  ∧ (∀ (pa : parse) (file : string)
       (oracle : string → list string → TranslationUnit),
       cas pa !! file = None →
       parseArgs pa file = []
       ∧ Parse oracle pa file
         = mkSymbolsTUDB file (FileTime (oracle file []) file)
             (Visit (TranslationUnitCursor (oracle file [])))).
Proof.
  unfold newParser. split_and!.
  - intros l1 l2 -> Hopen. by rewrite (newParserLoop_skip env l1 path l2) by auto.
  - intros Hall. by rewrite newParserLoop_absent.
  - intros Hin Hopen. split.
    + destruct (newParserLoop_abort env dirs path ∅ Hin) as [p ->]; eauto.
    + simpl. by rewrite Hopen.
  - intros Hin Hopen. split.
    + destruct (newParserLoop_abort env dirs path ∅ Hin) as [p ->]; eauto.
    + simpl. by rewrite Hopen.
  - intros pa file oracle Hnone. unfold Parse, parseArgs. by rewrite Hnone.
Qed.

Lemma C9_database_loading_witness :
  let env := mkEnv (Some "/proj")
               (λ f, if bool_decide (f = "/locked/compile_commands.json")
                     then ErrPermission else ErrNotExist) in
  ∃ p, newParser env ["/proj"; "/locked"] = Panic p.
Proof.
  cbv zeta.
  refine (proj1 (proj1 (proj2 (proj2 (C9_database_loading _ _ "/locked"))) _ _)).
  - by_eval.
  - by vm_compute.
Defined.

(** C10: getCompArgs returns only for commands whose last token is not a
    bare -D or -I.  It fails on the index one past the token list exactly
    at such a last token: an index panic implies the command ends in a bare
    flag, and a command that ends in one never returns (it panics on the
    index, unless an earlier token already panicked). *)
Theorem C10_trailing_flag_panics (env : Env) (command path : string) :
  (getCompArgs env command path = Panic IndexOutOfRange →
     last (Fields command) = Some "-D" ∨ last (Fields command) = Some "-I")
  ∧ (last (Fields command) = Some "-D" ∨ last (Fields command) = Some "-I" →
       (∃ p, getCompArgs env command path = Panic p)
       ∧ (∀ args,
            getCompArgsLoop env (Fields command) path 0
              (removelast (Fields command)) [] = Ok args →
            getCompArgs env command path = Panic IndexOutOfRange))
  ∧ getCompArgs env "gcc -c x.c -D" path = Panic IndexOutOfRange
  ∧ getCompArgs env "gcc -DFOO -I" path = Panic IndexOutOfRange.
Proof.
  unfold getCompArgs. split_and!.
  - by apply getCompArgsLoop_index.
  - intros Hlast.
    assert (∃ pre arg, Fields command = pre ++ [arg] ∧ (arg = "-D" ∨ arg = "-I"))
      as (pre & arg & Hsplit & Harg).
    { destruct Hlast as [Hl|Hl]; apply last_Some in Hl as [pre Hpre]; eauto. }
    assert (Hstep : ∀ a, getCompArgsStep env (Fields command) path
                           (0 + length pre) arg a = Panic IndexOutOfRange).
    { intros a. apply getCompArgsStep_last; [done|].
      apply lookup_ge_None. rewrite Hsplit, length_app. simpl. lia. }
    assert (Hloop : getCompArgsLoop env (Fields command) path 0 (Fields command) []
                    = (letP a := getCompArgsLoop env (Fields command) path 0 pre [] in
                       Panic IndexOutOfRange)).
    { transitivity (getCompArgsLoop env (Fields command) path 0 (pre ++ [arg]) []);
        [by rewrite <- Hsplit|].
      rewrite getCompArgsLoop_snoc.
      destruct (getCompArgsLoop env (Fields command) path 0 pre []); simpl; [|done].
      apply Hstep. }
    assert (Hpre : removelast (Fields command) = pre)
      by (by rewrite Hsplit, removelast_last).
    rewrite Hloop, Hpre.
    split.
    + destruct (getCompArgsLoop env (Fields command) path 0 pre []); simpl; eauto.
    + by intros args ->.
  - done.
  - done.
Qed.

Lemma C10_trailing_flag_panics_witness :
  ∃ p, getCompArgs (mkEnv (Some "/proj") (λ _, ErrNotExist)) "gcc -c x.c -D" "/proj"
       = Panic p.
Proof.
  refine (proj1 (proj1 (proj2 (C10_trailing_flag_panics _ _ _)) _)).
  left. by vm_compute.
Defined.

(** * Further properties of the scheduler *)

Lemma sent_app (es1 es2 : list effect) : sent (es1 ++ es2) = sent es1 ++ sent es2.
Proof. unfold sent. apply omap_app. Qed.

Lemma inserted_app (es1 es2 : list effect) :
  inserted (es1 ++ es2) = inserted es1 ++ inserted es2.
Proof. unfold inserted. apply omap_app. Qed.

Lemma queueFilesToParse_cons (n : Z) (s : sched) (f : string) (files : list string) :
  queueFilesToParse n s (f :: files)
  = ((queueFilesToParse n (queueFileToParse n s f).1 files).1,
     (queueFileToParse n s f).2
       ++ (queueFilesToParse n (queueFileToParse n s f).1 files).2).
Proof.
  simpl. destruct (queueFileToParse n s f) as [s1 e1]. simpl.
  by destruct (queueFilesToParse n s1 files).
Qed.

(** One request: the path is tracked afterwards, nothing is forgotten, and
    no other path is touched. *)
Lemma queueFileToParse_tracks (n : Z) (s : sched) (f : string) :
  let s' := (queueFileToParse n s f).1 in
  (f ∈ inFlight s' ∨ f ∈ toParseMap s')
  ∧ inFlight s ⊆ inFlight s' ∧ toParseMap s ⊆ toParseMap s'
  ∧ (∀ g, g ≠ f → (g ∈ inFlight s' ↔ g ∈ inFlight s)
                  ∧ (g ∈ toParseMap s' ↔ g ∈ toParseMap s)).
Proof.
  destruct (queueFileToParse_cases n s f)
    as [(_ & _ & ->)|[(_ & _ & ->)|(_ & Hq & ->)]]; simpl; set_solver.
Qed.

(** X1: a batch of requests loses nothing: every requested file is
    marked in flight or queued afterwards, every path that was tracked
    before still is, and paths that were not requested are left alone. *)
Theorem X1_requests_tracked (n : Z) (files : list string) : ∀ (s : sched),
  let s' := (queueFilesToParse n s files).1 in
  (∀ f, f ∈ files → f ∈ inFlight s' ∨ f ∈ toParseMap s')
  ∧ inFlight s ⊆ inFlight s' ∧ toParseMap s ⊆ toParseMap s'
  ∧ (∀ g, g ∉ files → (g ∈ inFlight s' ↔ g ∈ inFlight s)
                      ∧ (g ∈ toParseMap s' ↔ g ∈ toParseMap s)).
Proof.
  induction files as [|f files IH]; intros s; cbv zeta.
  - simpl. set_solver.
  - rewrite queueFilesToParse_cons. simpl.
    destruct (queueFileToParse_tracks n s f) as (Hf & Hif & Hq & Hother).
    destruct (IH (queueFileToParse n s f).1) as (Hall & Hif' & Hq' & Hother').
    split_and!.
    + intros g [->|Hg]%elem_of_cons; [|by apply Hall]. set_solver.
    + set_solver.
    + set_solver.
    + intros g Hg. apply not_elem_of_cons in Hg as [Hne Hg].
      destruct (Hother g Hne) as [H1 H2]. destruct (Hother' g Hg) as [H3 H4].
      split; [by rewrite H3|by rewrite H4].
Qed.

Lemma queueFilesToParse_sends (n : Z) (files : list string) : ∀ (s : sched),
  let s' := (queueFilesToParse n s files).1 in
  let es := (queueFilesToParse n s files).2 in
  inserted es = []
  ∧ NoDup (sent es)
  ∧ (∀ f, f ∈ sent es → f ∈ files ∧ f ∉ inFlight s)
  ∧ inFlight s' = inFlight s ∪ list_to_set (sent es)
  ∧ (Z.of_nat (size (inFlight s')) ≤ Z.max n (Z.of_nat (size (inFlight s))))%Z.
Proof.
  induction files as [|f files IH]; intros s; cbv zeta.
  - simpl. split_and!; [done|constructor|set_solver|set_solver|lia].
  - rewrite queueFilesToParse_cons. simpl.
    destruct (IH (queueFileToParse n s f).1) as (Hins & Hnd & Hfresh & Hif & Hsz).
    rewrite sent_app, inserted_app, Hins, Hif.
    destruct (queueFileToParse_cases n s f)
      as [(Hlt & Hni & Heq)|[(_ & _ & Heq)|(_ & _ & Heq)]];
      rewrite Heq in *; simpl in *.
    + split_and!.
      * done.
      * apply NoDup_cons. split; [|done]. intros Hin. apply Hfresh in Hin. set_solver.
      * intros g [->|Hg]%elem_of_cons; [set_solver|].
        apply Hfresh in Hg. set_solver.
      * set_solver.
      * rewrite Hif in Hsz.
        assert (size ({[f]} ∪ inFlight s) = S (size (inFlight s))) as Hs1.
        { rewrite size_union, size_singleton by set_solver. done. }
        rewrite Hs1 in Hsz. lia.
    + split_and!; [done|done| |done|by rewrite Hif in Hsz].
      intros g Hg. apply Hfresh in Hg. set_solver.
    + split_and!; [done|done| |done|by rewrite Hif in Hsz].
      intros g Hg. apply Hfresh in Hg. set_solver.
Qed.

(** X2: what a batch of requests sends to the workers: no snapshot is
    inserted; no path is sent twice; every path sent was requested and was
    not marked in flight; the In-Flight Set grows by exactly the paths sent;
    and it does not grow beyond the configured count. *)
Theorem X2_requests_send_fresh (n : Z) (files : list string) (s : sched) :
  let s' := (queueFilesToParse n s files).1 in
  let es := (queueFilesToParse n s files).2 in
  inserted es = []
  ∧ NoDup (sent es)
  ∧ (∀ f, f ∈ sent es → f ∈ files ∧ f ∉ inFlight s)
  ∧ inFlight s' = inFlight s ∪ list_to_set (sent es)
  ∧ (Z.of_nat (size (inFlight s')) ≤ Z.max n (Z.of_nat (size (inFlight s))))%Z.
Proof. apply queueFilesToParse_sends. Qed.

(** X3: the backlog is first in, first out.  A request leaves the queued
    paths where they are and adds at most its own path at the tail; and any
    number of completions in a row, up to the length of the backlog, send
    exactly the paths at its front, in their order, leaving the rest. *)
Theorem X3_backlog_fifo (n : Z) (ts : list symbolsTUDB) : ∀ (st : system),
  (∀ f, toParseQueue (sch (request n st f)) = toParseQueue (sch st)
        ∨ toParseQueue (sch (request n st f)) = toParseQueue (sch st) ++ [f])
  ∧ (length ts ≤ length (toParseQueue (sch st)) →
       let st' := fold_left complete ts st in
       toParseQueue (sch st') = drop (length ts) (toParseQueue (sch st))
       ∧ sent (trace st') = sent (trace st) ++ take (length ts) (toParseQueue (sch st))).
Proof.
  intros st. split.
  { intros f. unfold request.
    destruct (queueFileToParse_cases n (sch st) f)
      as [(_ & _ & ->)|[(_ & _ & ->)|(_ & _ & ->)]]; simpl; auto. }
  revert st. induction ts as [|t ts IH]; intros st Hlen; cbv zeta.
  - simpl. rewrite ?drop_0, ?take_0, ?app_nil_r. done.
  - simpl in *. destruct (toParseQueue (sch st)) as [|h q] eqn:Hq; simpl in Hlen; [lia|].
    assert (Hstep : toParseQueue (sch (complete st t)) = q
                    ∧ sent (trace (complete st t)) = sent (trace st) ++ [h]).
    { unfold complete, doneFileToParse. rewrite Hq. simpl.
      rewrite !sent_app. by destruct (negb _). }
    destruct Hstep as [Hq' Hsent'].
    destruct (IH (complete st t)) as [Hd Hs]; [rewrite Hq'; lia|].
    rewrite Hd, Hs, Hq', Hsent'. simpl. by rewrite <- app_assoc.
Qed.

Lemma X3_backlog_fifo_witness :
  let st := run 1 [Request "a"; Request "b"; Request "c"; Request "d"] in
  let ts := [mkSymbolsTUDB "a" 0 []; mkSymbolsTUDB "b" 0 []] in
  toParseQueue (sch (fold_left complete ts st)) = ["d"].
Proof.
  cbv zeta.
  refine (eq_trans (proj1 (proj2 (X3_backlog_fifo 1 _ _) _)) _);
    first [by vm_compute | vm_compute; lia].
Defined.

(** X4: a snapshot discarded as stale leaves its file pending.  In a
    reachable state, when the completed file is in the backlog membership
    set, nothing is inserted and the file is either sent to a worker by this
    very completion (it was the head of the backlog) or still queued. *)
Theorem X4_stale_file_stays_pending (n : Z) (st : system) (tudb : symbolsTUDB) :
  reachable n st →
  tudbFile tudb ∈ toParseMap (sch st) →
  let s' := (doneFileToParse (sch st) tudb).1 in
  let es := (doneFileToParse (sch st) tudb).2 in
  inserted es = []
  ∧ (sent es = [tudbFile tudb] ∨ tudbFile tudb ∈ toParseMap s')
  ∧ (tudbFile tudb ∈ toParseMap s' → tudbFile tudb ∈ toParseQueue s').
Proof.
  intros Hr Hq. destruct (reachable_inv _ _ Hr) as [Hnd Hmap _ _].
  cbv zeta. unfold doneFileToParse.
  rewrite (bool_decide_eq_true_2 _ Hq). simpl.
  rewrite Hmap in Hq |- *. apply elem_of_list_to_set in Hq.
  destruct (toParseQueue (sch st)) as [|h q]; simpl; [by apply elem_of_nil in Hq|].
  apply NoDup_cons in Hnd as [Hh _].
  split_and!; [done| |].
  - apply elem_of_cons in Hq as [Heq|Hq]; [left; by rewrite Heq|right].
    apply elem_of_difference. split; [set_solver|].
    intros Heq%elem_of_singleton. by rewrite Heq in Hq.
  - intros [Hin Hne]%elem_of_difference. set_solver.
Qed.

Lemma X4_stale_file_stays_pending_witness :
  let st := run 1 [Request "a"; Request "b"; Request "a"] in
  let tudb := mkSymbolsTUDB "a" 0 [] in
  reachable 1 st ∧ inserted (doneFileToParse (sch st) tudb).2 = [].
Proof.
  assert (Hr : reachable 1 (run 1 [Request "a"; Request "b"; Request "a"]))
    by run_reachable.
  split; [exact Hr|].
  refine (proj1 (X4_stale_file_stays_pending 1 _ (mkSymbolsTUDB "a" 0 []) Hr _)).
  by_eval.
Defined.

(** The scheduler invents no work, from any state on. *)
Lemma runFrom_provenance (n : Z) (R : string → Prop) (T : symbolsTUDB → Prop)
    (es : list event) : ∀ (st st' : system),
  runFrom n st es = Some st' →
  (∀ f, Request f ∈ es → R f) →
  (∀ t, Complete t ∈ es → T t) →
  (∀ f, f ∈ toParseQueue (sch st) ∨ f ∈ sent (trace st) → R f) →
  (∀ t, t ∈ inserted (trace st) → T t) →
  (∀ f, f ∈ toParseQueue (sch st') ∨ f ∈ sent (trace st') → R f)
  ∧ (∀ t, t ∈ inserted (trace st') → T t).
Proof.
  induction es as [|e es IH]; intros st st' Hrun HR HT Hst HstT; simpl in Hrun.
  - by injection Hrun as <-.
  - destruct e as [f|t]; case_bool_decide; try discriminate.
    + apply (IH _ _ Hrun); [set_solver|set_solver| |].
      * assert (R f) by (apply HR; set_solver).
        intros g. unfold request.
        destruct (queueFileToParse_cases n (sch st) f)
          as [(_ & _ & ->)|[(_ & _ & ->)|(_ & _ & ->)]]; simpl;
          rewrite ?sent_app, ?app_nil_r; simpl;
          rewrite ?elem_of_app, ?list_elem_of_singleton; naive_solver.
      * intros t. unfold request.
        destruct (queueFileToParse_cases n (sch st) f)
          as [(_ & _ & ->)|[(_ & _ & ->)|(_ & _ & ->)]]; simpl;
          rewrite ?inserted_app, ?app_nil_r; simpl; rewrite ?app_nil_r; auto.
    + apply (IH _ _ Hrun); [set_solver|set_solver| |].
      * intros g. unfold complete, doneFileToParse.
        destruct (toParseQueue (sch st)) as [|h q] eqn:Hq; simpl;
          rewrite !sent_app; destruct (negb _); simpl;
          rewrite ?app_nil_r, ?elem_of_app, ?list_elem_of_singleton;
          intros Hg; apply Hst; rewrite ?Hq; set_solver.
      * assert (T t) by (apply HT; set_solver).
        intros t'. unfold complete, doneFileToParse.
        destruct (toParseQueue (sch st)) as [|h q] eqn:Hq; simpl;
          rewrite !inserted_app; destruct (negb _); simpl;
          rewrite ?app_nil_r, ?elem_of_app, ?list_elem_of_singleton;
          naive_solver.
Qed.

(** X5: the scheduler invents no work.  In every run of the daemon from
    its start state, a path is sent to a worker (or waits in the backlog)
    only if a request for it was made, and a snapshot is inserted in the
    database only if it is one the loop received from a worker. *)
Theorem X5_no_invented_work (n : Z) (es : list event) (st : system) :
  runFrom n startSystem es = Some st →
  (∀ f, f ∈ toParseQueue (sch st) ∨ f ∈ sent (trace st) → Request f ∈ es)
  ∧ (∀ t, t ∈ inserted (trace st) → Complete t ∈ es).
Proof.
  intros Hrun.
  apply (runFrom_provenance n (λ f, Request f ∈ es) (λ t, Complete t ∈ es)
           es startSystem st Hrun); try done.
  - simpl. intros f [Hf|Hf]; by apply elem_of_nil in Hf.
  - simpl. intros t Hf. by apply elem_of_nil in Hf.
Qed.

Lemma X5_no_invented_work_witness :
  let es := [Request "a"; Request "b"; Complete (mkSymbolsTUDB "a" 0 [])] in
  Complete (mkSymbolsTUDB "a" 0 []) ∈ es.
Proof.
  cbv zeta.
  refine (proj2 (X5_no_invented_work 1 _ _ _) (mkSymbolsTUDB "a" 0 []) _).
  - by vm_compute.
  - vm_compute. apply list_elem_of_here.
Defined.




(** X7: with a configured count of zero or less no parse ever starts: in
    every reachable state nothing has been sent to a worker, nothing is in
    flight, no snapshot has been inserted, and every requested path sits in
    the backlog. *)
Theorem X7_no_workers_no_parse (n : Z) (st : system) :
  reachable n st → (n ≤ 0)%Z →
  sent (trace st) = [] ∧ inserted (trace st) = []
  ∧ working st = [] ∧ inFlight (sch st) = ∅
  ∧ (∀ f, f ∈ toParseQueue (sch (request n st f))).
Proof.
  intros Hr Hn.
  assert (Hinv : sent (trace st) = [] ∧ inserted (trace st) = []
                 ∧ working st = [] ∧ inFlight (sch st) = ∅).
  { induction Hr as [|st f _ IH _|st tudb _ IH Hin]; [done| |].
    - destruct IH as (Hs & Hi & Hw & Hif). unfold request.
      destruct (queueFileToParse_cases n (sch st) f)
        as [(Hlt & _ & _)|[(_ & _ & ->)|(_ & _ & ->)]]; simpl;
        rewrite ?sent_app, ?inserted_app, ?Hs, ?Hi, ?Hw; [lia|done|done].
    - destruct IH as (_ & _ & Hw & _). rewrite Hw in Hin. by apply elem_of_nil in Hin. }
  destruct Hinv as (Hs & Hi & Hw & Hif). split_and!; try done.
  destruct (reachable_inv _ _ Hr) as [_ Hmap _ _].
  intros f. unfold request.
  destruct (queueFileToParse_cases n (sch st) f)
    as [(Hlt & _ & _)|[(_ & _ & ->)|(_ & Hq & ->)]]; simpl.
  - lia.
  - set_solver.
  - rewrite Hmap in Hq. by apply elem_of_list_to_set in Hq.
Qed.

Lemma X7_no_workers_no_parse_witness :
  let st := run 0 [Request "a"; Request "b"] in
  reachable 0 st ∧ working st = [].
Proof.
  assert (Hr : reachable 0 (run 0 [Request "a"; Request "b"])) by run_reachable.
  split; [exact Hr|].
  refine (proj1 (proj2 (proj2 (X7_no_workers_no_parse 0 _ Hr _)))). lia.
Defined.

(** * Further properties of the argument resolver *)

(** ** Rooted and relative paths *)

Lemma IsAbs_cons (a : ascii) (s : string) :
  IsAbs (String a s) = bool_decide (a = "/"%char).
Proof.
  unfold IsAbs, HasPrefix.
  change (String.prefix "/" (String a s))
    with (match ascii_dec "/" a with
          | left _ => String.prefix "" s
          | right _ => false
          end).
  destruct (ascii_dec "/" a) as [<-|Hne].
  - rewrite bool_decide_eq_true_2 by done. by destruct s.
  - by rewrite bool_decide_eq_false_2 by congruence.
Qed.

Lemma IsAbs_app (a b : string) : IsAbs a = true → IsAbs (a +:+ b) = true.
Proof.
  destruct a as [|c a]; [by cbv|].
  change (String c a +:+ b) with (String c (a +:+ b)). by rewrite !IsAbs_cons.
Qed.

Lemma splitOn_not_rooted (s : string) :
  Forall (λ c, IsAbs c = false) (splitOn Separator s).
Proof.
  induction s as [|a s IH]; simpl.
  - by constructor.
  - case_bool_decide as Ha.
    + by constructor.
    + destruct (splitOn Separator s) as [|h t].
      * constructor; [|done]. rewrite IsAbs_cons. by apply bool_decide_eq_false_2.
      * apply Forall_cons in IH as [_ IH]. constructor; [|done].
        rewrite IsAbs_cons. by apply bool_decide_eq_false_2.
Qed.

Lemma cleanStep_elements (rooted : bool) (stack : list string) (c : string) :
  Forall pathElement stack → IsAbs c = false →
  Forall pathElement (cleanStep rooted stack c).
Proof.
  intros Hst Hc. unfold cleanStep.
  case_bool_decide as H1; [done|].
  assert (pathElement c) by (split; [tauto|done]).
  case_bool_decide as H2.
  - destruct stack as [|top rest].
    + destruct rooted; [constructor|by constructor].
    + case_bool_decide; [by constructor|]. by apply Forall_cons in Hst as [_ ?].
  - by constructor.
Qed.

Lemma clean_fold_elements (rooted : bool) (comps : list string) : ∀ stack,
  Forall pathElement stack → Forall (λ c, IsAbs c = false) comps →
  Forall pathElement (fold_left (cleanStep rooted) comps stack).
Proof.
  induction comps as [|c comps IH]; intros stack Hst Hc; simpl; [done|].
  apply Forall_cons in Hc as [Hc Hcs].
  apply IH; [|done]. by apply cleanStep_elements.
Qed.

Lemma Join_elements_relative (l : list string) :
  Forall pathElement l → IsAbs (Join l "/") = false.
Proof.
  unfold Join. destruct l as [|x l]; [done|].
  intros [[Hne Hx] _]%Forall_cons. simpl.
  destruct l as [|y l]; [done|].
  destruct x as [|a x]; [done|].
  change (IsAbs (String a (x +:+ "/" +:+ String.concat "/" (y :: l))) = false).
  rewrite IsAbs_cons in *. done.
Qed.

(** filepath.Clean keeps a rooted path rooted and a relative path relative. *)
Lemma IsAbs_Clean (p : string) : IsAbs (Clean p) = IsAbs p.
Proof.
  unfold Clean. destruct (IsAbs p) eqn:Hp.
  - apply (IsAbs_app "/"). by cbv.
  - case_bool_decide; [by cbv|].
    apply Join_elements_relative, Forall_rev, clean_fold_elements;
      [constructor|apply splitOn_not_rooted].
Qed.

Lemma stripCommon_elements (b : list string) : ∀ t,
  Forall pathElement b → Forall pathElement t →
  Forall pathElement (stripCommon b t).1 ∧ Forall pathElement (stripCommon b t).2.
Proof.
  induction b as [|x b IH]; intros t Hb Ht; simpl; [done|].
  destruct t as [|y t]; [done|].
  case_bool_decide; [|done].
  apply Forall_cons in Hb as [_ Hb]. apply Forall_cons in Ht as [_ Ht]. by apply IH.
Qed.

Lemma pathElements_elements (p : string) : Forall pathElement (pathElements p).
Proof.
  unfold pathElements. apply Forall_forall. intros c Hc.
  apply list_elem_of_filter in Hc as [[Hne _] Hin].
  split; [done|].
  pose proof (splitOn_not_rooted p) as Hall. rewrite Forall_forall in Hall.
  by apply Hall.
Qed.

(** What filepath.Rel returns is never rooted. *)
Lemma Rel_relative (basepath targpath rel : string) :
  Rel basepath targpath = Some rel → IsAbs rel = false.
Proof.
  unfold Rel. case_bool_decide; [by intros [= <-]|].
  destruct (negb _); [done|].
  pose proof (stripCommon_elements (pathElements (Clean basepath))
                (pathElements (Clean targpath))
                (pathElements_elements _) (pathElements_elements _)) as [Hb Ht].
  destruct (stripCommon _ _) as [br tr]. simpl in Hb, Ht. cbv beta iota.
  destruct br as [|x br].
  - intros [= <-]. by apply Join_elements_relative.
  - case_bool_decide; [done|]. intros [= <-].
    refine (Join_elements_relative (replicate (length (x :: br)) ".." ++ tr) _).
    apply Forall_app. split; [|done].
    apply Forall_forall. intros c Hc.
    apply elem_of_replicate in Hc as [-> _]. done.
Qed.

(** filepath.Rel fails between a rooted and a relative path. *)
Lemma Rel_mixed (basepath targpath : string) :
  IsAbs basepath ≠ IsAbs targpath → Rel basepath targpath = None.
Proof.
  intros Hne. unfold Rel.
  rewrite bool_decide_eq_false_2.
  - rewrite !IsAbs_Clean. by destruct (IsAbs basepath), (IsAbs targpath).
  - intros Heq. apply Hne. by rewrite <- (IsAbs_Clean basepath), <- Heq, IsAbs_Clean.
Qed.

(** ** fixCompDirArg and fixPaths *)

(** X8: the rewritten include directory follows the convention of the
    root.  When the working directory is rooted (as os.Getwd reports it)
    and the root is not the empty string, the directory fixCompDirArg
    returns is rooted exactly when the root is. *)
Theorem X8_include_dir_follows_root (env : Env) (argDir path d : string) :
  (∀ wd, Getwd env = Some wd → IsAbs wd = true) →
  path ≠ "" →
  fixCompDirArg env argDir path = Ok d →
  IsAbs d = IsAbs path.
Proof.
  intros Hwd Hpath. unfold fixCompDirArg, Abs.
  destruct (IsAbs path) eqn:Hp; destruct (IsAbs argDir) eqn:Ha.
  - by intros [= <-].
  - destruct (Getwd env) as [wd|] eqn:Hg; [|done]. intros [= <-].
    rewrite IsAbs_Clean. unfold Join2.
    pose proof (Hwd wd eq_refl) as Hw.
    rewrite bool_decide_eq_false_2 by (intros ->; by cbv in Hw).
    rewrite IsAbs_Clean. by apply IsAbs_app.
  - destruct (Getwd env) as [wd|]; [|done].
    destruct (Rel wd argDir) as [rel|] eqn:Hrel; [|done]. intros [= <-].
    rewrite IsAbs_Clean. by apply Rel_relative in Hrel.
  - intros [= <-]. rewrite IsAbs_Clean.
    destruct path as [|a path]; [done|].
    change (String a path +:+ "/" +:+ argDir)
      with (String a (path +:+ "/" +:+ argDir)).
    by rewrite IsAbs_cons in *.
Qed.

Lemma X8_include_dir_follows_root_witness :
  IsAbs "../../inc" = IsAbs "src".
Proof.
  refine (X8_include_dir_follows_root
            (mkEnv (Some "/home/user/proj") (λ _, ErrNotExist))
            "/home/inc" "src" _ _ _ _).
  - by intros wd [= <-].
  - done.
  - by vm_compute.
Defined.

Lemma fixPathsLoop_ok (wd : string) (cas : list compArgs) : ∀ cas',
  fixPathsLoop wd cas = Ok cas' →
  length cas' = length cas
  ∧ Directory <$> cas' = Directory <$> cas
  ∧ Command <$> cas' = Command <$> cas
  ∧ Forall (λ ca, IsAbs (File ca) = false) cas'.
Proof.
  induction cas as [|ca cas IH]; intros cas'; simpl.
  - intros [= <-]. by repeat split.
  - destruct (Rel wd (File ca)) as [rel|] eqn:Hrel; [|done].
    destruct (fixPathsLoop wd cas) as [rest|]; simpl; [|done].
    intros [= <-]. destruct (IH rest eq_refl) as (Hl & Hd & Hc & Hf).
    split_and!;
      [simpl; by rewrite Hl
      |rewrite !fmap_cons; simpl; by rewrite Hd
      |rewrite !fmap_cons; simpl; by rewrite Hc|].
    constructor; [|done]. simpl. rewrite IsAbs_Clean. by apply Rel_relative in Hrel.
Qed.

(** X9: fixPaths touches nothing but the file names.  When it returns,
    the entries are as many as before with the same directories and
    commands; under a rooted root they are unchanged, and under a relative
    root every file name has become a relative path. *)
Theorem X9_fixPaths_rewrites_files (env : Env) (cas cas' : list compArgs)
    (path : string) :
  fixPaths env cas path = Ok cas' →
  length cas' = length cas
  ∧ Directory <$> cas' = Directory <$> cas
  ∧ Command <$> cas' = Command <$> cas
  ∧ (IsAbs path = true → cas' = cas)
  ∧ (IsAbs path = false → Forall (λ ca, IsAbs (File ca) = false) cas').
Proof.
  unfold fixPaths. destruct (IsAbs path).
  - intros [= <-]. by repeat split.
  - destruct (Getwd env) as [wd|]; [|done]. intros Hok.
    destruct (fixPathsLoop_ok wd cas cas' Hok) as (Hl & Hd & Hc & Hf).
    by repeat split.
Qed.

Lemma X9_fixPaths_rewrites_files_witness :
  ∃ cas', fixPaths (mkEnv (Some "/home/user") (λ _, ErrNotExist))
            [mkCompArgs "/home/user/proj" "gcc -c a.c" "/home/user/proj/a.c"] "proj"
          = Ok cas'
          ∧ length cas' = 1.
Proof.
  eexists. split; [by vm_compute|].
  refine (proj1 (X9_fixPaths_rewrites_files
                   (mkEnv (Some "/home/user") (λ _, ErrNotExist))
                   [mkCompArgs "/home/user/proj" "gcc -c a.c" "/home/user/proj/a.c"]
                   _ "proj" _)).
  by vm_compute.
Defined.

(** X10: a database that names a file by a relative path aborts the
    daemon when the root is relative: with a rooted working directory,
    fixPaths panics (unable to get relative path) as soon as one entry's
    file is not rooted; and it panics if the working directory cannot be
    read. *)
Theorem X10_fixPaths_relative_entry_panics (env : Env) (cas : list compArgs)
    (path : string) :
  IsAbs path = false →
  (Getwd env = None → fixPaths env cas path = Panic PanicGetwd)
  ∧ (∀ wd ca, Getwd env = Some wd → IsAbs wd = true →
              ca ∈ cas → IsAbs (File ca) = false →
              fixPaths env cas path = Panic PanicRel).
Proof.
  intros Hp. unfold fixPaths. rewrite Hp. split.
  - by intros ->.
  - intros wd ca -> Hwd Hin Hf.
    induction cas as [|c cas IH]; [by apply elem_of_nil in Hin|].
    simpl. destruct (Rel wd (File c)) as [rel|] eqn:Hrel; [|done].
    apply elem_of_cons in Hin as [->|Hin].
    + rewrite Rel_mixed in Hrel; [done|]. by rewrite Hwd, Hf.
    + by rewrite (IH Hin).
Qed.

Lemma X10_fixPaths_relative_entry_panics_witness :
  fixPaths (mkEnv (Some "/home/user") (λ _, ErrNotExist))
    [mkCompArgs "." "gcc -c a.c" "a.c"] "proj" = Panic PanicRel.
Proof.
  refine (proj2 (X10_fixPaths_relative_entry_panics _ _ "proj" _)
            "/home/user" (mkCompArgs "." "gcc -c a.c" "a.c") _ _ _ _);
    first [by vm_compute | by apply list_elem_of_here].
Defined.

(** ** getCompArgs *)

(** strings.Replace with count 1 on a string that starts with the old text
    replaces that start. *)
Lemma ReplaceFirst_prefix (s old new : string) :
  HasPrefix s old = true →
  ReplaceFirst s old new = new +:+ dropBytes (String.length old) s.
Proof.
  unfold HasPrefix. intros H. destruct s as [|c s].
  - destruct old; [done|discriminate].
  - change (ReplaceFirst (String c s) old new)
      with (if String.prefix old (String c s)
            then new +:+ dropBytes (String.length old) (String c s)
            else String c (ReplaceFirst s old new)).
    by rewrite H.
Qed.

Section ResolverOutput.
Context (env : Env) (argsList : list string) (path : string).

(** An iteration only appends, and a token that starts with -D is among
    what it appends. *)
Lemma getCompArgsStep_appends i arg args args' :
  getCompArgsStep env argsList path i arg args = Ok args' →
  ∃ ext, args' = args ++ ext
         ∧ (HasPrefix arg "-D" = true → [arg] `sublist_of` ext).
Proof.
  unfold getCompArgsStep.
  case_bool_decide as HD.
  { destruct (argsList !! (i + 1)) as [next|]; [|done]. intros [= <-].
    eexists. split; [done|]. intros _. apply sublist_skip, sublist_nil_l. }
  destruct (HasPrefix arg "-D") eqn:HpD.
  { intros [= <-]. eexists. split; [done|]. done. }
  case_bool_decide as HI.
  { destruct (argsList !! (i + 1)) as [next|]; [|done].
    destruct (fixCompDirArg env next path); simpl; [|done].
    intros [= <-]. eexists. split; [done|]. done. }
  destruct (HasPrefix arg "-I").
  - destruct (fixCompDirArg env (ReplaceFirst arg "-I" "") path); simpl; [|done].
    intros [= <-]. eexists. split; [done|]. done.
  - intros [= <-]. exists []. by rewrite app_nil_r.
Qed.

Lemma getCompArgsLoop_appends rest : ∀ i args out,
  getCompArgsLoop env argsList path i rest args = Ok out →
  ∃ ext, out = args ++ ext
         ∧ filter (λ t, HasPrefix t "-D" = true) rest `sublist_of` ext.
Proof.
  induction rest as [|arg rest IH]; intros i args out; simpl.
  - intros [= <-]. exists []. by rewrite app_nil_r.
  - destruct (getCompArgsStep env argsList path i arg args) as [args'|] eqn:Hstep;
      simpl; [|done].
    intros Hloop.
    destruct (getCompArgsStep_appends _ _ _ _ Hstep) as (e1 & -> & Hsub1).
    destruct (IH _ _ _ Hloop) as (e2 & -> & Hsub2).
    exists (e1 ++ e2). split; [by rewrite app_assoc|].
    rewrite filter_cons. case_decide as Hd.
    + change (arg :: ?l) with ([arg] ++ l). apply sublist_app; auto.
    + by apply sublist_inserts_l.
Qed.

(** Without a bare flag an iteration reads neither the index nor the
    token list. *)
Lemma getCompArgsStep_tokenwise i arg args :
  arg ≠ "-D" → arg ≠ "-I" →
  getCompArgsStep env argsList path i arg args =
    if HasPrefix arg "-D" then Ok (args ++ [arg])
    else if HasPrefix arg "-I" then
      (letP argDir := fixCompDirArg env (dropBytes 2 arg) path in
       Ok (args ++ ["-I"; argDir]))
    else Ok args.
Proof.
  intros HD HI. unfold getCompArgsStep.
  rewrite !bool_decide_eq_false_2 by done.
  destruct (HasPrefix arg "-D"); [done|].
  destruct (HasPrefix arg "-I") eqn:Hp; [|done].
  by rewrite (ReplaceFirst_prefix _ _ _ Hp).
Qed.

End ResolverOutput.

(** X11: no define is lost or reordered.  When getCompArgs returns, the
    tokens of the command that start with -D, taken in their order, form a
    subsequence of the arguments returned. *)
Theorem X11_defines_kept_in_order (env : Env) (command path : string)
    (args : list string) :
  getCompArgs env command path = Ok args →
  filter (λ t, HasPrefix t "-D" = true) (Fields command) `sublist_of` args.
Proof.
  unfold getCompArgs. intros Hok.
  by destruct (getCompArgsLoop_appends env _ _ _ _ _ _ Hok) as (ext & -> & Hsub).
Qed.

Lemma X11_defines_kept_in_order_witness :
  ["-DA"; "-DB=1"] `sublist_of` ["-DA"; "-I"; "inc"; "-DB=1"].
Proof.
  refine (X11_defines_kept_in_order (mkEnv None (λ _, ErrNotExist))
            "cc -DA -Iinc -O2 -DB=1 a.c" "." _ _).
  by vm_compute.
Defined.

#[local] Arguments dropBytes : simpl never.

Lemma getCompArgsLoop_tokenwise (env : Env) (argsList : list string)
    (path : string) (rest : list string) : ∀ i args out,
  (∀ t, t ∈ rest → t ≠ "-D" ∧ t ≠ "-I") →
  getCompArgsLoop env argsList path i rest args = Ok out →
  out = args ++
    flat_map (λ t, if HasPrefix t "-D" then [t]
                   else if HasPrefix t "-I" then
                     match fixCompDirArg env (dropBytes 2 t) path with
                     | Ok argDir => ["-I"; argDir]
                     | Panic _ => []
                     end
                   else []) rest.
Proof.
  induction rest as [|arg rest IH]; intros i args out Hbare; simpl.
  - intros [= <-]. by rewrite app_nil_r.
  - destruct (Hbare arg) as [HD HI]; [set_solver|].
    rewrite getCompArgsStep_tokenwise by done.
    assert (Hrest : ∀ t, t ∈ rest → t ≠ "-D" ∧ t ≠ "-I")
      by (intros t Ht; apply Hbare; set_solver).
    destruct (HasPrefix arg "-D").
    { simpl. intros Hloop. rewrite (IH _ _ _ Hrest Hloop). by rewrite <- app_assoc. }
    destruct (HasPrefix arg "-I").
    { destruct (fixCompDirArg env (dropBytes 2 arg) path) as [d|]; simpl.
      - intros Hloop. rewrite (IH _ _ _ Hrest Hloop).
        rewrite <- app_assoc. done.
      - done. }
    simpl. intros Hloop. by rewrite (IH _ _ _ Hrest Hloop).
Qed.

(** X12: for a command without a bare -D or -I, getCompArgs works token by
    token.  The arguments returned are, in the order of the tokens: the
    token itself when it starts with -D; -I and the rewritten rest of the
    token when it starts with -I; and nothing for any other token. *)
Theorem X12_arguments_token_by_token (env : Env) (command path : string)
    (args : list string) :
  (∀ t, t ∈ Fields command → t ≠ "-D" ∧ t ≠ "-I") →
  getCompArgs env command path = Ok args →
  args = flat_map (λ t, if HasPrefix t "-D" then [t]
                        else if HasPrefix t "-I" then
                          match fixCompDirArg env (dropBytes 2 t) path with
                          | Ok argDir => ["-I"; argDir]
                          | Panic _ => []
                          end
                        else []) (Fields command).
Proof.
  unfold getCompArgs. intros Hbare Hok.
  by rewrite (getCompArgsLoop_tokenwise env _ _ _ _ _ _ Hbare Hok).
Qed.

Lemma X12_arguments_token_by_token_witness :
  ∃ args, getCompArgs (mkEnv None (λ _, ErrNotExist)) "cc -DA -Iinc -O2 a.c" "src"
          = Ok args
          ∧ args = ["-DA"; "-I"; "src/inc"].
Proof.
  eexists. split; [by vm_compute|].
  refine (eq_trans
            (X12_arguments_token_by_token (mkEnv None (λ _, ErrNotExist))
               "cc -DA -Iinc -O2 a.c" "src" _ _ _) _).
  - intros t Ht. vm_compute in Ht. set_solver.
  - by vm_compute.
  - by vm_compute.
Defined.

Lemma indexCompArgs_lookup (env : Env) (path : string) (l : list compArgs) :
  ∀ (m m' : gmap string (list string)),
  indexCompArgs env path l m = Ok m' →
  (∀ f, f ∉ File <$> l → m' !! f = m !! f)
  ∧ (∀ l1 ca l2, l = l1 ++ ca :: l2 → File ca ∉ File <$> l2 →
       ∃ args, getCompArgs env (Command ca) path = Ok args
               ∧ m' !! File ca = Some args).
Proof.
  induction l as [|c l IH]; intros m m'; simpl.
  - intros [= <-]. split; [done|]. intros [|??] ?? Heq; discriminate.
  - destruct (getCompArgs env (Command c) path) as [a|] eqn:Ha; simpl; [|done].
    intros Hok. destruct (IH _ _ Hok) as [Hkeep Hlast]. split.
    + intros f Hf. rewrite ?fmap_cons in Hf. apply not_elem_of_cons in Hf as [Hne Hf].
      rewrite (Hkeep f Hf). by rewrite lookup_insert_ne.
    + intros [|c' l1] ca l2 Heq Hnot; simpl in Heq; injection Heq as -> ->.
      * exists a. split; [done|]. rewrite (Hkeep _ Hnot). by rewrite lookup_insert_eq.
      * by apply (Hlast l1 ca l2).
Qed.

(** X13: the mapping is indexed by file name and the last entry wins.
    When indexCompArgs returns, a file that no entry names keeps what the
    mapping held for it, and for every entry that no later entry of the
    database overrides, Parse will pass exactly the arguments extracted
    from that entry's command. *)
Theorem X13_last_entry_wins (env : Env) (path : string) (l : list compArgs)
    (m m' : gmap string (list string)) :
  indexCompArgs env path l m = Ok m' →
  (∀ f, f ∉ File <$> l → m' !! f = m !! f)
  ∧ (∀ l1 ca l2, l = l1 ++ ca :: l2 → File ca ∉ File <$> l2 →
       getCompArgs env (Command ca) path = Ok (parseArgs (mkParse m') (File ca))
       ∧ m' !! File ca = Some (parseArgs (mkParse m') (File ca))).
Proof.
  intros Hok. destruct (indexCompArgs_lookup env path l m m' Hok) as [Hkeep Hlast].
  split; [done|]. intros l1 ca l2 Heq Hnot.
  destruct (Hlast l1 ca l2 Heq Hnot) as (args & Hargs & Hlook).
  unfold parseArgs. simpl. by rewrite Hlook.
Qed.

Lemma X13_last_entry_wins_witness :
  ∃ m', indexCompArgs (mkEnv None (λ _, ErrNotExist)) "/proj"
          [mkCompArgs "/proj" "cc -DOLD a.c" "/proj/a.c";
           mkCompArgs "/proj" "cc -DNEW a.c" "/proj/a.c"] ∅ = Ok m'
        ∧ m' !! "/proj/b.c" = None.
Proof.
  eexists. split; [by vm_compute|].
  refine (eq_trans (proj1 (X13_last_entry_wins (mkEnv None (λ _, ErrNotExist)) "/proj"
            [mkCompArgs "/proj" "cc -DOLD a.c" "/proj/a.c";
             mkCompArgs "/proj" "cc -DNEW a.c" "/proj/a.c"] ∅ _ _) "/proj/b.c" _) _).
  - by vm_compute.
  - vm_compute. set_solver.
  - done.
Defined.

(** * Further properties of the traversal *)

Lemma in_flat_map_elem {A B : Type} (f : A → list B) (l : list A) (b : B) :
  b ∈ flat_map f l ↔ ∃ a, a ∈ l ∧ b ∈ f a.
Proof.
  rewrite list_elem_of_In, in_flat_map. split; intros (a & Ha & Hb); exists a.
  - by rewrite !list_elem_of_In.
  - by rewrite <- !list_elem_of_In.
Qed.

Lemma flat_map_length_le {A B C : Type} (f : A → list B) (g : A → list C)
    (l : list A) :
  Forall (λ a, length (f a) ≤ length (g a)) l →
  length (flat_map f l) ≤ length (flat_map g l).
Proof.
  induction 1 as [|a l Ha _ IH]; simpl; [done|]. rewrite !length_app. lia.
Qed.

(** A cursor makes at most one Insert call. *)
Lemma visitNode_at_most_one (c : Cursor) : length (visitNode c).1 ≤ 1.
Proof.
  unfold visitNode. destruct (getSymbolFromCursor (data c)); simpl; [|lia].
  case_bool_decide; simpl; [lia|]. unfold classify.
  repeat case_match; simpl; lia.
Qed.

Lemma visit_length (c : Cursor) : length (visit c) ≤ length (subtree c).
Proof.
  induction c as [d r df inc cs IH] using Cursor_tree_ind.
  pose proof (visitNode_at_most_one (mkCursor d r df inc cs)) as Hone.
  simpl in *. destruct (visitNode (mkCursor d r df inc cs)) as [es []]; simpl in *.
  - lia.
  - rewrite length_app. pose proof (flat_map_length_le visit subtree cs IH). lia.
Qed.

(** X14: a snapshot has at most one entry per cursor of the tree: the
    number of Insert calls of a traversal is at most the number of cursors
    below the translation unit's cursor. *)
Theorem X14_one_entry_per_cursor (root : Cursor) :
  length (Visit root) ≤ length (descendants root).
Proof.
  unfold Visit, descendants. apply flat_map_length_le, Forall_forall.
  intros c _. apply visit_length.
Qed.

Lemma visit_provenance : ∀ (c : Cursor) (e : tudbEntry),
  e ∈ visit c → ∃ c', c' ∈ subtree c ∧ e ∈ (visitNode c').1.
Proof.
  induction c as [d r df inc cs IH] using Cursor_tree_ind.
  intros e He. simpl in He.
  destruct (visitNode (mkCursor d r df inc cs)) as [es res] eqn:Hnode.
  assert (Hhere : e ∈ es → ∃ c', c' ∈ subtree (mkCursor d r df inc cs)
                                 ∧ e ∈ (visitNode c').1).
  { intros Hin. exists (mkCursor d r df inc cs). split; [by left|by rewrite Hnode]. }
  destruct res; [by apply Hhere|].
  apply elem_of_app in He as [He|He]; [by apply Hhere|].
  apply in_flat_map_elem in He as (c1 & Hc1 & He).
  rewrite Forall_forall in IH. destruct (IH c1 Hc1 e He) as (c' & Hc' & He').
  exists c'. split; [|done]. simpl. right. apply in_flat_map_elem. eauto.
Qed.

(** X15: every entry of a snapshot is the call made for one cursor of the
    tree: that cursor is not null, the cleaned name of its file is neither
    empty nor the current-directory marker, and the entry is what the
    switch on its kind makes of it.  In particular a header edge comes from
    an inclusion directive and carries its spelling and its included file. *)
Theorem X15_entries_come_from_cursors (root : Cursor) (e : tudbEntry) :
  e ∈ Visit root →
  ∃ c cur, c ∈ descendants root
           ∧ getSymbolFromCursor (data c) = Some cur
           ∧ locFile (loc cur) ≠ "" ∧ locFile (loc cur) ≠ "."
           ∧ e ∈ classify c cur
           ∧ (∀ inclPath incFile, e = InsertHeader inclPath incFile →
                Kind (data c) = Cursor_InclusionDirective
                ∧ inclPath = Spelling (data c) ∧ incFile = IncludedFile c).
Proof.
  unfold Visit, descendants. intros He.
  apply in_flat_map_elem in He as (c1 & Hc1 & He).
  destruct (visit_provenance c1 e He) as (c & Hc & Hnode).
  destruct (visitNode_entries c e Hnode) as (cur & Hcur & H1 & H2 & Hcl).
  exists c, cur. split_and!; try done.
  - apply in_flat_map_elem. eauto.
  - intros inclPath incFile ->. unfold classify in Hcl.
    repeat case_match; set_solver.
Qed.

Lemma X15_entries_come_from_cursors_witness :
  let null := mkCursorData true Cursor_Other "" "" "" 0 0 in
  let inc := mkCursor (mkCursorData false Cursor_InclusionDirective "b.h" "" "a.c" 1 1)
               null null "b.h" [] in
  let root := mkCursor (mkCursorData false Cursor_Other "a.c" "" "" 0 0) null null "" [inc] in
  ∃ c cur, c ∈ descendants root ∧ getSymbolFromCursor (data c) = Some cur
           ∧ locFile (loc cur) ≠ "" ∧ locFile (loc cur) ≠ "."
           ∧ InsertHeader "b.h" "b.h" ∈ classify c cur
           ∧ (∀ inclPath incFile, InsertHeader "b.h" "b.h" = InsertHeader inclPath incFile →
                Kind (data c) = Cursor_InclusionDirective
                ∧ inclPath = Spelling (data c) ∧ incFile = IncludedFile c).
Proof.
  cbv zeta. refine (X15_entries_come_from_cursors _ _ _).
  vm_compute. apply list_elem_of_here.
Defined.

Lemma visit_all_located : ∀ (c : Cursor),
  Forall (λ c', (visitNode c').2 = ChildVisit_Recurse) (subtree c) →
  visit c = flat_map (λ c', (visitNode c').1) (subtree c).
Proof.
  induction c as [d r df inc cs IH] using Cursor_tree_ind.
  intros Hall. simpl in Hall. apply Forall_cons in Hall as [Hhere Hbelow].
  simpl. destruct (visitNode (mkCursor d r df inc cs)) as [es res]. simpl in *.
  subst res. f_equal.
  induction cs as [|c1 cs IHcs]; simpl in *; [done|].
  apply Forall_cons in IH as [IH1 IHrest].
  apply Forall_app in Hbelow as [H1 Hrest].
  rewrite flat_map_app. rewrite (IH1 H1). f_equal. by apply IHcs.
Qed.

(** X16: the traversal is complete and in pre-order.  When no cursor below
    the translation unit's cursor is null or located in an unnamed file,
    the snapshot is the concatenation, in pre-order, of the calls made for
    every one of them. *)
Theorem X16_traversal_preorder (root : Cursor) :
  Forall (λ c, (visitNode c).2 = ChildVisit_Recurse) (descendants root) →
  Visit root = flat_map (λ c, (visitNode c).1) (descendants root).
Proof.
  unfold Visit, descendants.
  induction (children root) as [|c cs IH]; simpl; [done|].
  intros [Hc Hcs]%Forall_app.
  rewrite flat_map_app, (visit_all_located c Hc). f_equal. by apply IH.
Qed.

Lemma X16_traversal_preorder_witness :
  let null := mkCursorData true Cursor_Other "" "" "" 0 0 in
  let parm := mkCursor (mkCursorData false Cursor_ParmDecl "x" "c:f@x" "a.c" 1 12)
                null null "" [] in
  let f := mkCursor (mkCursorData false Cursor_FunctionDecl "f" "c:@F@f" "a.c" 1 5)
             null null "" [parm] in
  let g := mkCursor (mkCursorData false Cursor_VarDecl "g" "c:@g" "a.c" 2 5)
             null null "" [] in
  let root := mkCursor (mkCursorData false Cursor_Other "a.c" "" "" 0 0) null null "" [f; g] in
  Visit root = flat_map (λ c, (visitNode c).1) (descendants root).
Proof.
  cbv zeta. refine (X16_traversal_preorder _ _).
  vm_compute. repeat constructor.
Defined.

(** * Further properties: file names *)

Section Regexp.
Implicit Types (r : regex) (s : string) (x : ascii).

Lemma append_cons x s1 s2 : String x s1 +:+ s2 = String x (s1 +:+ s2).
Proof. done. Qed.

Lemma append_nil_r s : s +:+ "" = s.
Proof. induction s as [|c s IH]; [done|]. by rewrite append_cons, IH. Qed.

Lemma append_assoc s1 s2 s3 : (s1 +:+ s2) +:+ s3 = s1 +:+ (s2 +:+ s3).
Proof. induction s1 as [|c s1 IH]; [done|]. by rewrite !append_cons, IH. Qed.

Lemma append_eq_nil s1 s2 : s1 +:+ s2 = "" → s1 = "" ∧ s2 = "".
Proof. destruct s1; [done|discriminate]. Qed.

Lemma nullable_matches r : nullable r = true ↔ matches r "".
Proof.
  split.
  - induction r; simpl; try discriminate; intros Hn.
    + constructor.
    + apply andb_true_iff in Hn as [H1 H2].
      change "" with ("" +:+ ""). constructor; auto.
    + apply orb_true_iff in Hn as [H1|H2];
        [apply matches_alt_l|apply matches_alt_r]; auto.
    + constructor.
  - intros Hm. remember "" as s eqn:Hs.
    induction Hm; simpl; try discriminate; try done.
    + apply append_eq_nil in Hs as [-> ->]. by rewrite IHHm1, IHHm2.
    + by rewrite IHHm.
    + rewrite IHHm by done. by rewrite orb_true_r.
Qed.

(** A match of [Star r] on a string that starts with [x] starts with a
    match of [r] that starts with [x]. *)
Lemma matches_star_head r x s :
  matches (Star r) (String x s) →
  ∃ s1 s2, s = s1 +:+ s2 ∧ matches r (String x s1) ∧ matches (Star r) s2.
Proof.
  intros Hm. remember (Star r) as r' eqn:Hr. remember (String x s) as s' eqn:Hs.
  revert s Hs. induction Hm as [| | | | | | | |r0 s1 s2 Hm1 _ Hm2 IH2];
    try discriminate; intros s Hs.
  injection Hr as ->. destruct s1 as [|y s1].
  - simpl in Hs. by apply IH2.
  - simpl in Hs. injection Hs as -> <-. eauto.
Qed.

Lemma deriv_matches r : ∀ x s, matches (deriv x r) s ↔ matches r (String x s).
Proof.
  induction r as [| |c|c| |r1 IH1 r2 IH2|r1 IH1 r2 IH2|r1 IH1]; intros x s; simpl.
  - split; inversion 1.
  - split; inversion 1.
  - case_bool_decide as Hx; split; inversion 1; subst; try done; constructor.
  - case_bool_decide as Hx; split; inversion 1; subst; try done; by constructor.
  - case_bool_decide as Hx; split; inversion 1; subst; try done; by constructor.
  - assert (Hcat : matches (Cat (deriv x r1) r2) s →
                   matches (Cat r1 r2) (String x s)).
    { inversion 1 as [| | | |? ? s1 s2 H1 H2| | | |]; subst.
      apply IH1 in H1. change (String x (s1 +:+ s2)) with (String x s1 +:+ s2).
      by constructor. }
    assert (Hback : matches (Cat r1 r2) (String x s) →
                    matches (Cat (deriv x r1) r2) s
                    ∨ (matches r1 "" ∧ matches (deriv x r2) s)).
    { inversion 1 as [| | | |? ? s1 s2 H1 H2 Heq1 Heq2| | | |]; subst.
      destruct s1 as [|y s1].
      - change ("" +:+ s2) with s2 in Heq2. subst s2.
        right. split; [done|]. by apply IH2.
      - rewrite append_cons in Heq2. injection Heq2 as -> <-.
        left. constructor; [by apply IH1|done]. }
    destruct (nullable r1) eqn:Hn.
    + split.
      * inversion 1; subst; [by apply Hcat|].
        change (String x s) with ("" +:+ String x s).
        constructor; [by apply nullable_matches|by apply IH2].
      * intros [H|[_ H]]%Hback; [by apply matches_alt_l|by apply matches_alt_r].
    + split; [done|].
      intros [H|[H _]]%Hback; [done|].
      apply nullable_matches in H. congruence.
  - split.
    + inversion 1; subst; [apply matches_alt_l; by apply IH1
                          |apply matches_alt_r; by apply IH2].
    + inversion 1; subst; [apply matches_alt_l; by apply IH1
                          |apply matches_alt_r; by apply IH2].
  - split.
    + inversion 1 as [| | | |? ? s1 s2 H1 H2| | | |]; subst.
      apply IH1 in H1. change (String x (s1 +:+ s2)) with (String x s1 +:+ s2).
      by constructor.
    + intros (s1 & s2 & -> & H1 & H2)%matches_star_head.
      constructor; [by apply IH1|done].
Qed.

(** The matcher decides the denotation. *)
Lemma MatchString_matches s : ∀ r, MatchString r s = true ↔ matches r s.
Proof.
  induction s as [|x s IH]; intros r; simpl.
  - apply nullable_matches.
  - by rewrite IH, deriv_matches.
Qed.

End Regexp.

Section Patterns.
Implicit Types (s m : string) (x c e : ascii).

Lemma matches_star_any m :
  matches (Star AnyChar) m ↔ Forall (λ x, x ≠ newline) (list_ascii_of_string m).
Proof.
  split.
  - intros Hm. remember (Star AnyChar) as r eqn:Hr.
    induction Hm as [| | | | | | | |r0 s1 s2 Hm1 _ Hm2 IH2]; try discriminate.
    + constructor.
    + injection Hr as ->. inversion Hm1; subst. simpl. constructor; auto.
  - induction m as [|x m IH]; simpl; intros Hall.
    + constructor.
    + apply Forall_cons in Hall as [Hx Hall].
      change (String x m) with (String x "" +:+ m).
      constructor; [by constructor|auto].
Qed.

(** The strings of a pattern [^[^\.].*\.e$]. *)
Lemma matches_valid_name e s :
  matches (Cat (NotLit ".") (Cat (Star AnyChar) (Cat (Lit ".") (Lit e)))) s
  ↔ ∃ c m, s = String c (m +:+ String "." (String e ""))
           ∧ c ≠ "."%char
           ∧ Forall (λ x, x ≠ newline) (list_ascii_of_string m).
Proof.
  split.
  - intros Hall.
    inversion Hall as [| | | |? ? s1 s2 Ha Hb| | | |]; subst.
    inversion Ha; subst.
    inversion Hb as [| | | |? ? m s3 Hm Hc| | | |]; subst.
    inversion Hc as [| | | |? ? s4 s5 Hd He| | | |]; subst.
    inversion Hd; subst. inversion He; subst.
    eexists _, m. split; [done|]. split; [done|]. by apply matches_star_any.
  - intros (c & m & -> & Hc & Hm).
    change (String c (m +:+ String "." (String e "")))
      with (String c "" +:+ (m +:+ (String "." "" +:+ String e ""))).
    repeat constructor; [done|]. by apply matches_star_any.
Qed.

End Patterns.

(** X17: what counts as a C source and as a header.  A path matches
    validCString exactly when it is one byte other than a dot, then any
    bytes without a newline, then [.c]; and the same with [.h] for
    validHString.  Only the first byte of the whole path is tested for the
    dot, whatever the directories in it. *)
Theorem X17_valid_names (path : string) :
  (MatchString validCString path = true
   ↔ ∃ c m, path = String c (m +:+ ".c") ∧ c ≠ "."%char
            ∧ Forall (λ x, x ≠ newline) (list_ascii_of_string m))
  ∧ (MatchString validHString path = true
     ↔ ∃ c m, path = String c (m +:+ ".h") ∧ c ≠ "."%char
              ∧ Forall (λ x, x ≠ newline) (list_ascii_of_string m)).
Proof.
  split; rewrite MatchString_matches; apply matches_valid_name.
Qed.

(** A path that starts with a dot is neither a source nor a header. *)
Lemma leading_dot_not_valid (rest : string) :
  MatchString validCString (String "." rest) = false
  ∧ MatchString validHString (String "." rest) = false.
Proof.
  split; apply not_true_is_false; intros Hm;
    apply MatchString_matches, matches_valid_name in Hm
      as (c & m & [= <- _] & Hc & _); done.
Qed.

(** * Further properties: the directory walk and the events *)

(** Induction on a tree with the entries as induction hypotheses. *)
Lemma fsNode_tree_ind (P : fsNode → Prop)
  (Hfile : ∀ name, P (FsFile name))
  (Hdir : ∀ name entries, Forall P entries → P (FsDir name entries)) :
  ∀ node, P node.
Proof.
  fix IH 1. intros [name|name entries]; [apply Hfile|apply Hdir].
  induction entries as [|c cs IHcs]; constructor; [apply IH|apply IHcs].
Qed.

Lemma HasPrefix_app (p x : string) : HasPrefix (p +:+ x) p = true.
Proof.
  unfold HasPrefix. induction p as [|a p IH].
  - by destruct x.
  - change (String.prefix (String a p) (String a p +:+ x))
      with (match ascii_dec a a with
            | left _ => String.prefix p (p +:+ x)
            | right _ => false
            end).
    by destruct (ascii_dec a a).
Qed.

Lemma HasPrefix_split (p s : string) :
  HasPrefix s p = true → ∃ x, s = p +:+ x.
Proof.
  unfold HasPrefix. revert s. induction p as [|a p IH]; intros s Hp.
  - by exists s.
  - destruct s as [|b s]; [done|].
    change (String.prefix (String a p) (String b s))
      with (match ascii_dec a b with
            | left _ => String.prefix p s
            | right _ => false
            end) in Hp.
    destruct (ascii_dec a b) as [->|]; [|done].
    destruct (IH s Hp) as [x ->]. by exists x.
Qed.

Lemma dotdotPath_leading_dot (path : string) :
  dotdotPath path → ∃ rest, path = String "." rest.
Proof.
  intros [->|Hp]; [by eexists|].
  apply HasPrefix_split in Hp as [x ->]. by eexists.
Qed.

Lemma cleanStep_keeps_dotdot (l : list string) (c : string) :
  ∃ l', cleanStep false (l ++ [".."]) c = l' ++ [".."].
Proof.
  unfold cleanStep. case_bool_decide; [by exists l|].
  case_bool_decide as Hc; [|by exists (c :: l)].
  destruct l as [|top l]; simpl.
  - by exists [c].
  - case_bool_decide; [by exists (c :: top :: l)|by exists l].
Qed.

Lemma clean_fold_keeps_dotdot (comps : list string) : ∀ l,
  ∃ l', fold_left (cleanStep false) comps (l ++ [".."]) = l' ++ [".."].
Proof.
  induction comps as [|c comps IH]; intros l; simpl; [by exists l|].
  destruct (cleanStep_keeps_dotdot l c) as [l1 ->]. apply IH.
Qed.

Lemma splitOn_dotdot (r : string) :
  splitOn Separator ("../" +:+ r) = ".." :: splitOn Separator r.
Proof. done. Qed.

(** filepath.Clean keeps the leading [..] of a relative path. *)
Lemma Clean_dotdot (r : string) : dotdotPath (Clean ("../" +:+ r)).
Proof.
  unfold Clean. change (IsAbs ("../" +:+ r)) with false.
  rewrite splitOn_dotdot.
  change (fold_left (cleanStep false) (".." :: splitOn Separator r) [])
    with (fold_left (cleanStep false) (splitOn Separator r) ([] ++ [".."])).
  destruct (clean_fold_keeps_dotdot (splitOn Separator r) []) as [l ->].
  rewrite rev_app_distr. simpl. unfold Join.
  destruct (rev l) as [|y l'] eqn:Hrev.
  - by left.
  - change (String.concat "/" (".." :: y :: l'))
      with ("../" +:+ String.concat "/" (y :: l')).
    rewrite bool_decide_eq_false_2 by done.
    right.
    change (HasPrefix ("../" +:+ String.concat "/" (y :: l')) "../" = true).
    apply HasPrefix_app.
Qed.

Lemma Join2_dotdot (path name : string) :
  dotdotPath path → dotdotPath (Join2 path name).
Proof.
  intros Hp. unfold Join2.
  destruct (dotdotPath_leading_dot _ Hp) as [rest Hrest].
  rewrite bool_decide_eq_false_2 by (by rewrite Hrest).
  destruct Hp as [->|Hp].
  - apply (Clean_dotdot name).
  - apply HasPrefix_split in Hp as [x ->].
    rewrite append_assoc. apply Clean_dotdot.
Qed.

Lemma walk_dotdot : ∀ (node : fsNode) (path : string) (vs : list walkVisit),
  dotdotPath path → walk path node = Some vs → ∀ p, VisitC p ∉ vs.
Proof.
  induction node as [name|name entries IH] using fsNode_tree_ind;
    intros path vs Hp; simpl.
  - destruct (dotdotPath_leading_dot _ Hp) as [rest ->].
    rewrite (proj1 (leading_dot_not_valid rest)).
    intros [= <-] p Hin. apply list_elem_of_singleton in Hin. done.
  - destruct (hiddenDir name) as [[]|]; [|idtac|done].
    { intros [= <-] p Hin. by apply elem_of_nil in Hin. }
    assert (Hentries : ∀ vs', walkEntries walk path entries = Some vs' →
                              ∀ p, VisitC p ∉ vs').
    { clear vs. induction entries as [|child entries IHe]; simpl; intros vs'.
      - intros [= <-] p Hin. by apply elem_of_nil in Hin.
      - apply Forall_cons in IH as [IHc IHrest].
        destruct (walk (Join2 path (nodeName child)) child) as [v1|] eqn:Hw; [|done].
        destruct (walkEntries walk path entries) as [v2|] eqn:Hrest; [|done].
        intros [= <-] p Hin. apply elem_of_app in Hin as [Hin|Hin].
        + by apply (IHc _ _ (Join2_dotdot _ _ Hp) Hw p).
        + by apply (IHe IHrest v2 eq_refl p). }
    destruct (walkEntries walk path entries) as [vs'|]; [|done].
    intros [= <-] p Hin. apply elem_of_cons in Hin as [?|Hin]; [done|].
    by apply (Hentries vs' eq_refl p).
Qed.

#[local] Arguments queueFilesToParse : simpl never.

Lemma visitNewDir_sends (n : Z) (vs : list walkVisit) : ∀ (s : sched),
  inserted (visitNewDir n s vs).1.2 = []
  ∧ inFlight s ⊆ inFlight (visitNewDir n s vs).1.1
  ∧ (∀ f, f ∈ sent (visitNewDir n s vs).1.2 → VisitC f ∈ vs ∧ f ∉ inFlight s)
  ∧ ((∀ p, VisitC p ∉ vs) →
       (visitNewDir n s vs).1.1 = s ∧ (visitNewDir n s vs).1.2 = []).
Proof.
  induction vs as [|v vs IH]; intros s; simpl.
  - split_and!; [done|done|set_solver|done].
  - destruct (IH s) as (Hi & Hs & Hf & Hno).
    destruct v as [p|p|p]; simpl.
    + destruct (visitNewDir n s vs) as [[s' es] cs]; simpl in *.
      split_and!; [done|done|set_solver|]. intros Hnone. apply Hno. set_solver.
    + pose proof (queueFilesToParse_sends n [p] s) as (Hi1 & _ & Hf1 & Hif1 & _).
      destruct (queueFilesToParse n s [p]) as [s1 e1] eqn:Hq1; simpl in *.
      destruct (IH s1) as (Hi2 & Hs2 & Hf2 & _).
      destruct (visitNewDir n s1 vs) as [[s' es] cs]; simpl in *.
      rewrite inserted_app, sent_app, Hi1, Hi2.
      split_and!; [done|set_solver| |set_solver].
      intros f [Hin|Hin]%elem_of_app.
      * apply Hf1 in Hin as [Hin Hni]. set_solver.
      * apply Hf2 in Hin as [Hin Hni]. set_solver.
    + split_and!; [done|done|set_solver|]. intros Hnone. apply Hno. set_solver.
Qed.

(** X18: a root that starts by going up yields no source.  Below a root
    written [..] or [../...], every path of the walk starts with a dot, so
    traversePath hands no file to visitC, and the visitors of handleDirChange
    leave the scheduler as it was and send nothing. *)
Theorem X18_upward_root_finds_no_source (w : World) (path : string)
    (vs : list walkVisit) :
  dotdotPath path →
  traversePath w path = Some vs →
  (∀ p, VisitC p ∉ vs)
  ∧ (∀ n s, (visitNewDir n s vs).1.1 = s ∧ (visitNewDir n s vs).1.2 = []).
Proof.
  intros Hp Hwalk.
  assert (Hnone : ∀ p, VisitC p ∉ vs).
  { unfold traversePath in Hwalk. destruct (Lstat w path) as [node|].
    - by apply (walk_dotdot node path vs Hp).
    - injection Hwalk as <-. intros p Hin. by apply elem_of_nil in Hin. }
  split; [done|]. intros n s.
  by apply (visitNewDir_sends n vs s).
Qed.

Lemma X18_upward_root_finds_no_source_witness :
  let w := mkWorld (λ _, None) (λ _, false) (λ _, StatNotExist)
             (λ _, Some (FsDir "src" [FsFile "a.c"; FsDir "sub" [FsFile "b.c"]])) in
  ∃ vs, traversePath w "../src" = Some vs ∧ ∀ p, VisitC p ∉ vs.
Proof.
  cbv zeta. eexists. split; [by vm_compute|].
  refine (proj1 (X18_upward_root_finds_no_source
                   (mkWorld (λ _, None) (λ _, false) (λ _, StatNotExist)
                      (λ _, Some (FsDir "src" [FsFile "a.c"; FsDir "sub" [FsFile "b.c"]])))
                   "../src" _ _ _)).
  - right. by vm_compute.
  - by vm_compute.
Defined.

(** X19: a file event on a path that starts with a dot is ignored, whatever
    its operation and whatever the name ends in: handleFileChange returns
    with the scheduler unchanged, nothing sent and no call made. *)
Theorem X19_leading_dot_event_ignored (n : Z) (w : World) (s : sched)
    (rest : string) (op : Z) :
  handleFileChange n w s (mkEvent (String "." rest) op) = Some (s, [], []).
Proof.
  unfold handleFileChange. cbn [Name Op].
  destruct (leading_dot_not_valid rest) as [-> ->]. done.
Qed.





(** X21: an event schedules nothing but the work it names.  When
    handleChange returns, no snapshot has been inserted, and every path
    sent to a worker was not marked in flight and is the path of the event,
    a source found by the walk below that path, or a file the database
    reports as including it. *)
Theorem X21_events_schedule_named_work (n : Z) (w : World) (s s' : sched)
    (event : Event) (es : list effect) (cs : list call) :
  handleChange n w s event = Some (s', es, cs) →
  inserted es = []
  ∧ (∀ f, f ∈ sent es →
       (f ∉ inFlight s)
       ∧ (f = Name event
          ∨ (∃ vs, traversePath w (Name event) = Some vs ∧ VisitC f ∈ vs)
          ∨ (∃ l, GetIncluders w (Name event) = Some l ∧ f ∈ l))).
Proof.
  unfold handleChange.
  destruct (Base (Name event)) as [|c rest]; [done|].
  assert (Hnone : inserted [] = [] ∧ ∀ f, f ∈ sent [] →
            (f ∉ inFlight s)
            ∧ (f = Name event
               ∨ (∃ vs, traversePath w (Name event) = Some vs ∧ VisitC f ∈ vs)
               ∨ (∃ l, GetIncluders w (Name event) = Some l ∧ f ∈ l))).
  { split; [done|]. intros f Hf. by apply elem_of_nil in Hf. }
  case_bool_decide; [by intros [= <- <- <-]|].
  assert (Hdir : handleDirChange n w s event = Some (s', es, cs) →
            inserted es = [] ∧ ∀ f, f ∈ sent es →
              (f ∉ inFlight s)
              ∧ (f = Name event
                 ∨ (∃ vs, traversePath w (Name event) = Some vs ∧ VisitC f ∈ vs)
                 ∨ (∃ l, GetIncluders w (Name event) = Some l ∧ f ∈ l))).
  { unfold handleDirChange.
    destruct (hasOp (Op event) fsnotify_Create).
    - destruct (traversePath w (Name event)) as [vs|] eqn:Hwalk; [|done].
      pose proof (visitNewDir_sends n vs s) as (Hi & _ & Hf & _).
      intros [= Heq]. rewrite Heq in Hi, Hf. simpl in *.
      split; [done|]. intros f Hin. destruct (Hf f Hin) as [Hv Hni].
      split; [done|]. right. left. eauto.
    - destruct (hasOp _ _); by intros [= <- <- <-]. }
  assert (Hfile : handleFileChange n w s event = Some (s', es, cs) →
            inserted es = [] ∧ ∀ f, f ∈ sent es →
              (f ∉ inFlight s)
              ∧ (f = Name event
                 ∨ (∃ vs, traversePath w (Name event) = Some vs ∧ VisitC f ∈ vs)
                 ∨ (∃ l, GetIncluders w (Name event) = Some l ∧ f ∈ l))).
  { unfold handleFileChange, parseIncluders.
    destruct (MatchString validCString (Name event)).
    - destruct (hasOp _ _).
      + pose proof (queueFilesToParse_sends n [Name event] s) as (Hi & _ & Hf & _).
        destruct (queueFilesToParse n s [Name event]) as [s1 e1]; simpl in *.
        intros [= <- <- <-]. split; [done|]. intros f Hin.
        destruct (Hf f Hin) as [Hv Hni]. split; [done|]. left. set_solver.
      + destruct (hasOp _ _); by intros [= <- <- <-].
    - destruct (MatchString validHString (Name event)); [|by intros [= <- <- <-]].
      destruct (hasOp _ _); [|by intros [= <- <- <-]].
      destruct (GetIncluders w (Name event)) as [l|] eqn:Hl; [|done].
      pose proof (queueFilesToParse_sends n l s) as (Hi & _ & Hf & _).
      destruct (queueFilesToParse n s l) as [s1 e1]; simpl in *.
      intros [= <- <- <-]. split; [done|]. intros f Hin.
      destruct (Hf f Hin) as [Hv Hni]. split; [done|]. right. right. eauto. }
  destruct (Stat w (Name event)) as [[]| |]; try done.
  - destruct (negb (FileExist w (Name event))); done.
  - by intros [= <- <- <-].
Qed.

Lemma X21_events_schedule_named_work_witness :
  let w := mkWorld (λ _, Some ["src/a.c"]) (λ _, true) (λ _, StatOk false) (λ _, None) in
  ∃ s' es cs, handleChange 2 w startState (mkEvent "src/b.h" fsnotify_Write)
              = Some (s', es, cs)
              ∧ inserted es = [].
Proof.
  cbv zeta. eexists _, _, _. split; [by vm_compute|].
  refine (proj1 (X21_events_schedule_named_work 2
                   (mkWorld (λ _, Some ["src/a.c"]) (λ _, true) (λ _, StatOk false)
                      (λ _, None))
                   startState _ (mkEvent "src/b.h" fsnotify_Write) _ _ _)).
  by vm_compute.
Defined.
